(** * HTML tree builder, exporter and explorer of test2.py

    The tree of [HTMLParser._build_tree] is a graph of Python dicts that
    point at each other: a node owns its children through the list under
    ["children"] and refers back to its owner under ["parent"].  Identity
    of dicts matters to the explorer's cursor, so the dicts live in an
    arena and a reference is an index into it. *)

From Stdlib Require Import Ascii String ZArith.
From stdpp Require Import base option list strings gmap.
From stdpp Require Import pretty.

#[local] Set Warnings "-register-all".

(** ** Parsed document

    What the builder reads from the parsed markup: [element.name],
    [element.get("class", [])] and [element.children].  A text node is a
    [NavigableString]; everything that has children is a [Tag], whose name
    the builder tests against [None]. *)

Inductive PageElement : Type :=
| NavigableString (text : string)
| Tag (name : option string) (class_ : option (list string))
      (contents : list PageElement).

Definition element_name (element : PageElement) : option string :=
  match element with
  | NavigableString _ => None
  | Tag name _ _ => name
  end.

(** [element.get("class", [])] *)
Definition element_classes (element : PageElement) : list string :=
  match element with
  | NavigableString _ => []
  | Tag _ class_ _ => default [] class_
  end.

(** A document as the markup parser hands it over: every tag carries a
    name (the root object of a parse is a tag named [[document]]), so the
    only nodes without a name are the strings, and these hold nothing. *)
Fixpoint parsed (element : PageElement) : bool :=
  match element with
  | NavigableString _ => true
  | Tag (Some _) _ contents => forallb parsed contents
  | Tag None _ _ => false
  end.

(** ** Node arena *)

Abbreviation addr := nat (only parsing).

Record node : Type := Node {
  tag : string;
  classes : list string;
  children : list addr;
  parent : option addr
}.

Abbreviation heap := (list node) (only parsing).

Definition set_children (cs : list addr) (n : node) : node :=
  {| tag := tag n; classes := classes n; children := cs; parent := parent n |}.

(** [node["children"].append(child_node)] on the dict stored at [a]. *)
Definition append_child (a child_node : addr) (h : heap) : heap :=
  alter (fun n => set_children (children n ++ [child_node]) n) a h.

(** [node.get("children", [])] and [node.get("parent")]. *)
Definition get_children (h : heap) (a : addr) : list addr :=
  match h !! a with
  | Some n => children n
  | None => []
  end.

Definition get_parent (h : heap) (a : addr) : option addr :=
  match h !! a with
  | Some n => parent n
  | None => None
  end.

Definition get_classes (h : heap) (a : addr) : list string :=
  match h !! a with
  | Some n => classes n
  | None => []
  end.

(** ** HTMLParser._build_tree

    The recursion threads the arena: the new dict is allocated first, with
    an empty child list, and every child that comes back as a dict is
    appended to it afterwards. *)

Fixpoint _build_tree (element : PageElement) (parent : option addr) (h : heap)
  : option addr * heap :=
  match element with
  | NavigableString _ => (None, h)
  | Tag None _ _ => (None, h)
  | Tag (Some name) class_ contents =>
      let node := length h in
      let h := h ++ [Node name (default [] class_) [] parent] in
      (Some node,
       fold_left
         (fun h child =>
            match _build_tree child (Some node) h with
            | (Some child_node, h) => append_child node child_node h
            | (None, h) => h
            end)
         contents h)
  end.

(** The loop over [element.children], named so that lemmas can speak of it. *)
Definition build_children (node : addr) (contents : list PageElement) (h : heap)
  : heap :=
  fold_left
    (fun h child =>
       match _build_tree child (Some node) h with
       | (Some child_node, h) => append_child node child_node h
       | (None, h) => h
       end)
    contents h.

(** [HTMLParser.__init__]: the tree of a freshly parsed document. *)
Definition HTMLParser_root (soup : PageElement) : option addr * heap :=
  _build_tree soup None [].

(** ** Strings

    [" ".join(l)], [sub in s], and the line feed that separates rendered
    lines. *)

Definition LF : string := String "010"%char "".

Definition join (sep : string) (l : list string) : string :=
  String.concat sep l.

Fixpoint contains (sub s : string) : bool :=
  String.prefix sub s ||
  match s with
  | "" => false
  | String _ s' => contains sub s'
  end.

(** ** format_node_identifier *)

Definition format_node_identifier (n : node) : string :=
  let classes := join " " (classes n) in
  match classes with
  | "" => tag n
  | _ => tag n +:+ " (" +:+ classes +:+ ")"
  end.

(** ** tree_to_string

    The branch glyphs and indents are the literals of the source file.
    The recursion follows child references through the arena, so it takes
    a recursion budget: [None] is Python's RecursionError (or a reference
    that points nowhere, which a built tree never has). *)

Definition last_branch : string := "‚îî‚îÄ‚îÄ ".
Definition mid_branch : string := "‚îú‚îÄ‚îÄ ".
Definition blank_indent : string := "    ".
Definition cont_indent : string := "‚îÇ   ".

Definition enumerate {A} (l : list A) : list (nat * A) :=
  zip (seq 0 (length l)) l.

Definition classes_str (classes : list string) : string :=
  match classes with
  | [] => ""
  | _ => " (" +:+ join " " classes +:+ ")"
  end.

Fixpoint tree_to_string (fuel : nat) (h : heap) (a : addr)
    (prefix : string) (is_last : bool) : option string :=
  match fuel with
  | 0 => None
  | S fuel =>
      n ← h !! a;
      let tree_str :=
        prefix +:+ (if is_last then last_branch else mid_branch)
               +:+ tag n +:+ classes_str (classes n) in
      let children := children n in
      fold_left
        (fun tree_str '(i, child) =>
           tree_str ← tree_str;
           let new_prefix :=
             prefix +:+ (if is_last then blank_indent else cont_indent) in
           sub ← tree_to_string fuel h child new_prefix
                   (bool_decide (i = length children - 1));
           Some (tree_str +:+ LF +:+ sub))
        (enumerate children) (Some tree_str)
  end.

(** ** HTMLParser.export_json

    [remove_parent] copies every key of the node dict but ["parent"], in
    the dict's own key order, and replaces the list under ["children"] by
    the copies of the children.  [json.dump(..., indent=2)] then prints the
    copy; how a Python string is quoted and escaped is the encoder's
    business and is left open here. *)

Inductive json : Type :=
| JString (s : string)
| JArray (items : list json)
| JObject (items : list (string * json)).

Fixpoint remove_parent (fuel : nat) (h : heap) (a : addr) : option json :=
  match fuel with
  | 0 => None
  | S fuel =>
      n ← h !! a;
      new_children ← mapM (remove_parent fuel h) (children n);
      Some (JObject [("tag", JString (tag n));
                     ("classes", JArray (JString <$> classes n));
                     ("children", JArray new_children)])
  end.

Definition newline_indent (level : nat) : string :=
  LF +:+ join "" (replicate (2 * level) " ").

Section json_dump.
Variable encode_basestring : string → string.

Fixpoint dumps (level : nat) (o : json) : string :=
  match o with
  | JString s => encode_basestring s
  | JArray [] => "[]"
  | JArray items =>
      "[" +:+ newline_indent (S level)
          +:+ join ("," +:+ newline_indent (S level))
                (dumps (S level) <$> items)
          +:+ newline_indent level +:+ "]"
  | JObject [] => "{}"
  | JObject items =>
      "{" +:+ newline_indent (S level)
          +:+ join ("," +:+ newline_indent (S level))
                ((fun '(k, v) =>
                    encode_basestring k +:+ ": " +:+ dumps (S level) v)
                   <$> items)
          +:+ newline_indent level +:+ "}"
  end.

(** The text written to [filename]. *)
Definition export_json (fuel : nat) (h : heap) (root : addr) : option string :=
  tree_without_parents ← remove_parent fuel h root;
  Some (dumps 0 tree_without_parents).
End json_dump.

(** Does an exported structure carry key [k], at any depth? *)
Fixpoint json_has_key (k : string) (o : json) : bool :=
  match o with
  | JString _ => false
  | JArray items => existsb (json_has_key k) items
  | JObject items =>
      existsb (fun '(k', v) => bool_decide (k' = k) || json_has_key k v) items
  end.

(** ** HTMLParser.extract_text_by_blocks

    [soup.find_all(True)] lists every tag below the soup in document
    order; [get_text(strip=True)] concatenates the stripped, non-empty
    strings found anywhere below a tag.  White space is that of the ASCII
    range; comments and the strings of script and style elements, which
    [get_text] leaves out, have no constructor of their own here. *)

Definition is_space (c : ascii) : bool :=
  let n := nat_of_ascii c in
  ((9 <=? n) && (n <=? 13)) || ((28 <=? n) && (n <=? 32)).

Fixpoint lstrip (s : string) : string :=
  match s with
  | "" => ""
  | String c s' => if is_space c then lstrip s' else s
  end.

Definition strip (s : string) : string :=
  String.rev (lstrip (String.rev (lstrip s))).

Fixpoint descendants (element : PageElement) : list PageElement :=
  match element with
  | NavigableString _ => []
  | Tag _ _ contents => flat_map (fun c => c :: descendants c) contents
  end.

Definition is_tag (element : PageElement) : bool :=
  match element with
  | Tag _ _ _ => true
  | NavigableString _ => false
  end.

Definition find_all_True (soup : PageElement) : list PageElement :=
  List.filter is_tag (descendants soup).

Definition get_text_strip (element : PageElement) : string :=
  join ""
    (flat_map
       (fun e =>
          match e with
          | NavigableString text =>
              match strip text with
              | "" => []
              | stripped => [stripped]
              end
          | Tag _ _ _ => []
          end)
       (descendants element)).

Definition block_names : list string := ["div"; "p"; "span"].

Definition extract_text_by_blocks (soup : PageElement)
  : gmap string (list string) :=
  fold_left
    (fun blocks block =>
       match element_name block with
       | Some name =>
           if bool_decide (name ∈ block_names) then
             match get_text_strip block with
             | "" => blocks
             | block_text =>
                 <[name := default [] (blocks !! name) ++ [block_text]]> blocks
             end
           else blocks
       | None => blocks
       end)
    (find_all_True soup) ∅.

(** ** HTMLExplorer

    The cursor is the only state.  Two built-ins decide what a command
    means and are kept abstract: [int(arg)], which yields a number or
    raises ValueError ([None]), and [str.lower]. *)

Record HTMLExplorer : Type := Explorer { current_node : addr }.

Definition at_root_notice : string := "‚õî Already at the root.".
Definition out_of_range_notice : string := "‚õî Index out of range.".
Definition no_match_notice : string := "‚õî No matching class found.".

(** [arg in " ".join(child.get("classes", []))] *)
Definition class_match (h : heap) (arg : string) (child : addr) : bool :=
  contains arg (join " " (get_classes h child)).

Section explorer.
Variable py_int : string → option Z.
Variable lower : string → string.

(** Returns the explorer after the command and what it printed, if
    anything.  In the index branch the lookup is guarded by the range
    test, so its [None] arm is never taken. *)
Definition change_directory (h : heap) (self : HTMLExplorer) (arg : string)
  : HTMLExplorer * option string :=
  let children := get_children h (current_node self) in
  if String.eqb arg ".." then
    match get_parent h (current_node self) with
    | Some p => (Explorer p, None)
    | None => (self, Some at_root_notice)
    end
  else
    match py_int arg with
    | Some idx =>
        if bool_decide (0 ≤ idx < Z.of_nat (length children))%Z then
          match children !! Z.to_nat idx with
          | Some child => (Explorer child, None)
          | None => (self, None)
          end
        else (self, Some out_of_range_notice)
    | None =>
        let matching_children := List.filter (class_match h arg) children in
        match matching_children with
        | child :: _ => (Explorer child, None)
        | [] => (self, Some no_match_notice)
        end
    end.

(** [search_tree] appends to the [results] list of the enclosing call. *)
Fixpoint search_tree (fuel : nat) (h : heap) (query : string) (a : addr)
    (results : list addr) : option (list addr) :=
  match fuel with
  | 0 => None
  | S fuel =>
      n ← h !! a;
      let identifier := lower (format_node_identifier n) in
      let results :=
        if contains query identifier then results ++ [a] else results in
      fold_left
        (fun results child =>
           results ← results; search_tree fuel h query child results)
        (children n) (Some results)
  end.

(** The [results] that [search] goes on to print, one line each. *)
Definition search (fuel : nat) (h : heap) (self : HTMLExplorer)
    (query : string) : option (list addr) :=
  let query := lower query in
  search_tree fuel h query (current_node self) [].

(** The test [search_tree] applies to the node at [a]; [query] is the
    query as [search] hands it over, in lower case. *)
Definition identifier_matches (h : heap) (query : string) (a : addr) : bool :=
  match h !! a with
  | Some n => contains query (lower (format_node_identifier n))
  | None => false
  end.
End explorer.

(** A reading of the two built-ins on plain ASCII text, to run the
    explorer on examples: decimal literals with an optional minus sign,
    and the letters A to Z folded to lower case. *)

Fixpoint decimal_digits (acc : Z) (s : string) : option Z :=
  match s with
  | "" => Some acc
  | String c s' =>
      d ← Ascii.is_nat c; decimal_digits (10 * acc + Z.of_nat d) s'
  end.

Definition decimal_int (s : string) : option Z :=
  match s with
  | "" => None
  | String "-" "" => None
  | String "-" s' => Z.opp <$> decimal_digits 0 s'
  | _ => decimal_digits 0 s
  end.

Definition ascii_lower_char (c : ascii) : ascii :=
  let n := nat_of_ascii c in
  if (65 <=? n) && (n <=? 90) then ascii_of_nat (n + 32) else c.

Fixpoint ascii_lower (s : string) : string :=
  match s with
  | "" => ""
  | String c s' => String (ascii_lower_char c) (ascii_lower s')
  end.

(** ** Trees held by an arena

    [ntree] is a tree of node dicts with the address of each; [is_tree h
    par t] says that arena [h] holds [t], node for node, below parent
    reference [par].  [shape] forgets the addresses: it is what two
    structurally identical subtrees have in common. *)

Inductive ntree : Type :=
| NT (a : addr) (tg : string) (cls : list string) (kids : list ntree).

Definition root_addr (t : ntree) : addr :=
  match t with NT a _ _ _ => a end.

Fixpoint preorder (t : ntree) : list addr :=
  match t with
  | NT a _ _ kids => a :: flat_map preorder kids
  end.

Fixpoint height (t : ntree) : nat :=
  match t with
  | NT _ _ _ kids => S (max_list (height <$> kids))
  end.

Inductive shape : Type :=
| Shape (tg : string) (cls : list string) (kids : list shape).

Fixpoint erase (t : ntree) : shape :=
  match t with
  | NT _ tg cls kids => Shape tg cls (erase <$> kids)
  end.

Inductive is_tree (h : heap) : option addr → ntree → Prop :=
| is_tree_node a tg cls kids par :
    h !! a = Some (Node tg cls (root_addr <$> kids) par) →
    Forall (is_tree h (Some a)) kids →
    is_tree h par (NT a tg cls kids).

(** Nodes met when following child references from [root]. *)
Inductive reachable (h : heap) (root : addr) : addr → Prop :=
| reachable_root : reachable h root root
| reachable_child a n c :
    reachable h root a → h !! a = Some n → c ∈ children n →
    reachable h root c.

(** The shape the builder gives a document: a node without a name yields
    nothing, whatever it contains. *)
Fixpoint built_shape (element : PageElement) : option shape :=
  match element with
  | NavigableString _ => None
  | Tag None _ _ => None
  | Tag (Some name) class_ contents =>
      Some (Shape name (default [] class_) (omap built_shape contents))
  end.

(** Names of the elements of a document, at any depth. *)
Fixpoint element_names (element : PageElement) : list string :=
  match element with
  | NavigableString _ => []
  | Tag name _ contents =>
      option_list name ++ flat_map element_names contents
  end.

(** The exported form of a shape. *)
Fixpoint shape_json (s : shape) : json :=
  match s with
  | Shape tg cls kids =>
      JObject [("tag", JString tg);
               ("classes", JArray (JString <$> cls));
               ("children", JArray (shape_json <$> kids))]
  end.

(** ** Lines of a rendering *)

Fixpoint split_on (c : ascii) (s : string) : list string :=
  match s with
  | "" => [""]
  | String x s' =>
      if Ascii.eqb x c then "" :: split_on c s'
      else match split_on c s' with
           | l :: ls => String x l :: ls
           | [] => [String x ""]
           end
  end.

Definition lines (s : string) : list string := split_on "010"%char s.

Fixpoint has_char (c : ascii) (s : string) : bool :=
  match s with
  | "" => false
  | String x s' => Ascii.eqb x c || has_char c s'
  end.

Definition no_line_break (s : string) : Prop := has_char "010"%char s = false.

(** What one node shows on its line, after the indent and the branch. *)
Definition node_label (tg : string) (cls : list string) : string :=
  tg +:+ classes_str cls.

Fixpoint labels (t : ntree) : list string :=
  match t with
  | NT _ tg cls kids => node_label tg cls :: flat_map labels kids
  end.

(** The lines of the directory-style picture of [t], top to bottom: the
    node's own line, then the pictures of its children, each told whether
    it is the last of its siblings. *)
Fixpoint sibling_lines (render : ntree → string → bool → list string)
    (prefix : string) (ks : list ntree) : list string :=
  match ks with
  | [] => []
  | k :: ks' =>
      render k prefix (match ks' with [] => true | _ => false end)
      ++ sibling_lines render prefix ks'
  end.

Fixpoint render_lines (t : ntree) (prefix : string) (is_last : bool)
  : list string :=
  match t with
  | NT _ tg cls kids =>
      (prefix +:+ (if is_last then last_branch else mid_branch)
              +:+ node_label tg cls)
      :: sibling_lines render_lines
           (prefix +:+ (if is_last then blank_indent else cont_indent)) kids
  end.

(** Lines appended to a text, each after a line feed. *)
Definition lf_tail (ls : list string) : string :=
  foldr (fun l rest => LF +:+ l +:+ rest) "" ls.

(** ** A running example *)

Definition sample_soup : PageElement :=
  Tag (Some "[document]") None
    [Tag (Some "div") (Some ["a"])
       [Tag (Some "p") None [NavigableString "X"];
        Tag (Some "span") (Some ["b"]) [NavigableString "Y"]]].

Definition sample_heap : heap :=
  Eval vm_compute in (HTMLParser_root sample_soup).2.

Definition sample_tree : ntree :=
  NT 0 "[document]" []
    [NT 1 "div" ["a"] [NT 2 "p" [] []; NT 3 "span" ["b"] []]].

(** Two list items alike in tag and classes, at different addresses. *)
Definition twin_soup : PageElement :=
  Tag (Some "ul") None
    [Tag (Some "li") (Some ["x"]) []; Tag (Some "li") (Some ["x"]) []].

Definition twin_heap : heap :=
  Eval vm_compute in (HTMLParser_root twin_soup).2.

(** An encoder that puts a string between quotation marks and escapes
    nothing, to print examples. *)
Definition quoted (s : string) : string :=
  String "034"%char (s +:+ String "034"%char "").

(** A node without a name that wraps an element. *)
Definition wrapped_soup : PageElement :=
  Tag (Some "div") None [Tag None None [Tag (Some "p") None []]].

(** The tree the builder would give a document if a node without a name
    were skipped but searched: the elements found inside it go to the
    nearest named ancestor. *)
Fixpoint discovered_shapes (element : PageElement) : list shape :=
  match element with
  | NavigableString _ => []
  | Tag None _ contents => flat_map discovered_shapes contents
  | Tag (Some name) class_ contents =>
      [Shape name (default [] class_) (flat_map discovered_shapes contents)]
  end.

(** ** What a call of the builder does to the arena

    All addresses of [t] lie in a window; a call on a named element fills
    the window that starts at the end of the arena it was given and leaves
    the arena below it as it was. *)

Definition addrs_within (lo hi : nat) (t : ntree) : Prop :=
  Forall (fun b => lo ≤ b < hi) (preorder t).

Definition build_spec (element : PageElement) : Prop :=
  ∀ par h0,
    match built_shape element with
    | None => _build_tree element par h0 = (None, h0)
    | Some s =>
        ∃ t h,
          _build_tree element par h0 = (Some (length h0), h) ∧
          h0 `prefix_of` h ∧
          is_tree h par t ∧
          root_addr t = length h0 ∧
          erase t = s ∧
          addrs_within (length h0) (length h) t
    end.

(** ** get_breadcrumbs

    The loop climbs parent references until it meets [None]; the budget
    bounds the number of turns, and [None] as a result means the loop has
    not ended within it (or met a reference that points nowhere). *)

Fixpoint breadcrumb_path (fuel : nat) (h : heap) (node : option addr)
    (path : list string) : option (list string) :=
  match node with
  | None => Some path
  | Some a =>
      match fuel with
      | 0 => None
      | S fuel =>
          n ← h !! a;
          breadcrumb_path fuel h (parent n)
            (path ++ [format_node_identifier n])
      end
  end.

Definition get_breadcrumbs (fuel : nat) (h : heap) (node : option addr)
  : option string :=
  path ← breadcrumb_path fuel h node [];
  Some (join " > " (rev path)).

(** The identifier of a node with tag [tg] and classes [cls]. *)
Definition identifier_of (tg : string) (cls : list string) : string :=
  format_node_identifier (Node tg cls [] None).

(** Every node of a tree with the identifiers met on the way down to it,
    the node's own last; [above] are those met before the tree's root. *)
Fixpoint trails (above : list string) (t : ntree)
  : list (addr * list string) :=
  match t with
  | NT a tg cls kids =>
      let here := above ++ [identifier_of tg cls] in
      (a, here) :: flat_map (trails here) kids
  end.

(** What a run of the builder on a named element leaves behind: a tree
    whose nodes, in pre-order, are the slots added to the arena. *)
Definition build_layout (element : PageElement) : Prop :=
  ∀ par h0,
    match built_shape element with
    | None => _build_tree element par h0 = (None, h0)
    | Some s =>
        ∃ t h,
          _build_tree element par h0 = (Some (length h0), h) ∧
          h0 `prefix_of` h ∧
          is_tree h par t ∧
          root_addr t = length h0 ∧
          preorder t = seq (length h0) (length h - length h0)
    end.

(** The texts [extract_text_by_blocks] files under [name]: the text of
    every tag of that name, in document order, empty texts left out. *)
Definition block_text (name : string) (block : PageElement) : option string :=
  if bool_decide (element_name block = Some name) then
    match get_text_strip block with
    | "" => None
    | block_text => Some block_text
    end
  else None.

Definition block_texts (soup : PageElement) (name : string) : list string :=
  omap (block_text name) (find_all_True soup).

(** The stripped strings below an element, in document order. *)
Definition text_piece (e : PageElement) : list string :=
  match e with
  | NavigableString text =>
      match strip text with
      | "" => []
      | stripped => [stripped]
      end
  | Tag _ _ _ => []
  end.

Definition text_pieces (element : PageElement) : list string :=
  flat_map text_piece (descendants element).

(** Is [o] an object with the three fields of an exported node, in their
    order: a string under tag, strings under classes, objects of the same
    kind under children? *)
Definition is_jstring (o : json) : bool :=
  match o with
  | JString _ => true
  | _ => false
  end.

Fixpoint exported_node (o : json) : bool :=
  match o with
  | JObject [(k1, JString _); (k2, JArray cls); (k3, JArray kids)] =>
      bool_decide (k1 = "tag") && bool_decide (k2 = "classes")
      && bool_decide (k3 = "children")
      && forallb is_jstring cls && forallb exported_node kids
  | _ => false
  end.

(** ** Structures read back from a JSON file

    What [json.load] returns: [None], booleans, numbers, strings, lists
    and dicts with string keys.  All the code does with a number is test
    it, so numbers are any type with a test for being non-zero.  A dict is
    the list of its items, keys distinct; an exception is a [Raise]. *)

Inductive exn : Type :=
| ValueError (message : string)
| AttributeError
| TypeError
| RecursionError
| Exception_ (message : string).

Inductive result (A : Type) : Type :=
| Ok (a : A)
| Raise (e : exn).

Arguments Ok {A} a.
Arguments Raise {A} e.

Section loaded_json.
Context {number : Type}.
Variable nonzero : number → bool.

Inductive pyjson : Type :=
| PNone
| PBool (b : bool)
| PNumber (x : number)
| PStr (s : string)
| PList (items : list pyjson)
| PDict (items : list (string * pyjson)).

(** [d.get(k)], with [None] for a missing key. *)
Fixpoint dict_get (k : string) (items : list (string * pyjson))
  : option pyjson :=
  match items with
  | [] => None
  | (k', v) :: rest => if bool_decide (k' = k) then Some v else dict_get k rest
  end.

(** The truth value Python gives a loaded structure. *)
Definition truthy (v : pyjson) : bool :=
  match v with
  | PNone => false
  | PBool b => b
  | PNumber x => nonzero x
  | PStr s => negb (bool_decide (s = ""))
  | PList items => negb (bool_decide (items = []))
  | PDict items => negb (bool_decide (items = []))
  end.

(** What a [for] loop over a value goes through: the items of a list, the
    characters of a string, the keys of a dict; anything else is not
    iterable. *)
Fixpoint characters (s : string) : list pyjson :=
  match s with
  | "" => []
  | String c s' => PStr (String c "") :: characters s'
  end.

Definition py_iter (v : pyjson) : result (list pyjson) :=
  match v with
  | PList items => Ok items
  | PStr s => Ok (characters s)
  | PDict items => Ok ((fun kv => PStr kv.1) <$> items)
  | PNone | PBool _ | PNumber _ => Raise TypeError
  end.

(** ** flatten_html_json

    A node that is not a dict has no [get] and raises AttributeError; the
    budget is the recursion depth. *)
Fixpoint flatten_html_json (fuel : nat) (node : pyjson) (default_label : pyjson)
  : result (list pyjson * list pyjson) :=
  match fuel with
  | 0 => Raise RecursionError
  | S fuel =>
      match node with
      | PDict items =>
          let text := default PNone (dict_get "text" items) in
          let '(texts, labels) :=
            if truthy text then
              let fallback :=
                match default_label with
                | PNone => default PNone (dict_get "tag" items)
                | _ => default_label
                end in
              ([text], [default fallback (dict_get "label" items)])
            else ([], []) in
          match py_iter (default (PList []) (dict_get "children" items)) with
          | Ok children =>
              fold_left
                (fun acc child =>
                   match acc with
                   | Ok (texts, labels) =>
                       match flatten_html_json fuel child default_label with
                       | Ok (child_texts, child_labels) =>
                           Ok (texts ++ child_texts, labels ++ child_labels)
                       | Raise e => Raise e
                       end
                   | Raise e => Raise e
                   end)
                children (Ok (texts, labels))
          | Raise e => Raise e
          end
      | _ => Raise AttributeError
      end
  end.

(** ** build_dataset_from_json, up to the texts and labels

    The three accepted layouts of the file and the two ValueErrors; the
    tokenising and numbering that follow are not part of this. *)

Definition invalid_format_message : string :=
  "JSON file format is invalid. It must be a list, contain a 'data' key with a list, or be a nested tree.".

Definition no_entries_message : string :=
  "No valid entries found in JSON file.".

Definition is_none (v : pyjson) : bool :=
  match v with
  | PNone => true
  | _ => false
  end.

(** The loop over [data_list]; an entry without text or label is skipped. *)
Definition collect_entries (data_list : pyjson)
  : result (list pyjson * list pyjson) :=
  match data_list with
  | PNone => Ok ([], [])
  | _ =>
      match py_iter data_list with
      | Ok entries =>
          fold_left
            (fun acc entry =>
               match acc with
               | Ok (texts, labels) =>
                   match entry with
                   | PDict items =>
                       let text := default PNone (dict_get "text" items) in
                       let label := default PNone (dict_get "label" items) in
                       if is_none text || is_none label then Ok (texts, labels)
                       else Ok (texts ++ [text], labels ++ [label])
                   | _ => Raise AttributeError
                   end
               | Raise e => Raise e
               end)
            entries (Ok ([], []))
      | Raise e => Raise e
      end
  end.

Definition load_texts_labels (fuel : nat) (data : pyjson)
  : result (list pyjson * list pyjson) :=
  let gathered :=
    match data with
    | PDict items =>
        match dict_get "data" items with
        | Some data_list => collect_entries data_list
        | None =>
            match dict_get "tag" items, dict_get "children" items with
            | Some _, Some _ => flatten_html_json fuel data (PStr "unknown")
            | _, _ => Raise (ValueError invalid_format_message)
            end
        end
    | PList _ => collect_entries data
    | _ => Raise (ValueError invalid_format_message)
    end in
  match gathered with
  | Ok ([], _) => Raise (ValueError no_entries_message)
  | other => other
  end.

(** A structure written by [json.dump], as [json.load] gives it back. *)
Fixpoint as_loaded (o : json) : pyjson :=
  match o with
  | JString s => PStr s
  | JArray items => PList (as_loaded <$> items)
  | JObject items => PDict ((fun '(k, v) => (k, as_loaded v)) <$> items)
  end.

(** A tree of dicts of depth at most [depth]: what [flatten_html_json]
    can walk without an exception. *)
Fixpoint dict_tree (depth : nat) (node : pyjson) : Prop :=
  match depth with
  | 0 => False
  | S depth =>
      match node with
      | PDict items =>
          match dict_get "children" items with
          | None => True
          | Some (PList children) => Forall (dict_tree depth) children
          | Some _ => False
          end
      | _ => False
      end
  end.
End loaded_json.

Fixpoint shape_height (s : shape) : nat :=
  match s with
  | Shape _ _ kids => S (max_list (shape_height <$> kids))
  end.

(** A record of the list layouts, and whether the loop keeps it. *)
Definition text_label_record {number : Type} (pair : @pyjson number * @pyjson number)
  : @pyjson number :=
  PDict [("text", pair.1); ("label", pair.2)].

Definition complete_record {number : Type} (pair : @pyjson number * @pyjson number)
  : bool :=
  negb (is_none pair.1) && negb (is_none pair.2).

(** Numbers as integers, for examples. *)
Definition nonzero_Z (z : Z) : bool := negb (Z.eqb z 0).

(** ** split_into_samples

    [range(0, stop, step)] for a positive step holds the multiples of the
    step below [stop]; a step of zero is a ValueError and a negative step
    gives the empty range.  [text[i:i+size]] is the substring of [size]
    characters from position [i], cut short at the end of the text; a
    character of the text is one element of the string. *)

Definition py_range (stop step : nat) : list nat :=
  (fun k => k * step) <$> seq 0 ((stop + step - 1) / step).

Definition range_zero_step_message : string :=
  "range() arg 3 must not be zero".

Definition split_into_samples (text : string) (sample_size : Z)
  : result (list string) :=
  if (sample_size =? 0)%Z then Raise (ValueError range_zero_step_message)
  else if (sample_size <? 0)%Z then Ok []
  else
    let size := Z.to_nat sample_size in
    Ok ((fun i => String.substring i size text)
          <$> py_range (String.length text) size).

(** ** Vocabulary and fixed-length sequences of build_dataset

    [vocab_common] is the list of (word, count) pairs that
    [most_common] returns; [seq[:max_len]] with a negative bound drops
    that many items from the end. *)

Definition build_vocab (vocab_common : list (string * nat)) : gmap string nat :=
  fold_left
    (fun word_to_idx '(word, _) => <[word := size word_to_idx]> word_to_idx)
    vocab_common {["<PAD>" := 0]}.

Definition py_slice_to {A} (l : list A) (stop : Z) : list A :=
  if (0 <=? stop)%Z then take (Z.to_nat stop) l
  else take (length l - Z.to_nat (- stop)) l.

Definition pad_sequence (word_to_idx : gmap string nat) (tokens : list string)
    (max_len : Z) : list nat :=
  let seq :=
    py_slice_to ((fun word => default 0 (word_to_idx !! word)) <$> tokens)
                max_len in
  if (Z.of_nat (length seq) <? max_len)%Z then
    seq ++ replicate (Z.to_nat (max_len - Z.of_nat (length seq))) 0
  else seq.

(** ** WebScraper.fetch

    The browser is outside the program: [driver n] is what attempt number
    [n] meets.  The loop returns the page of the first attempt that gets
    one, sleeps after an attempt that ends in a WebDriverException, lets
    any other exception through, and raises when the attempts are used
    up.  The second component counts the sleeps. *)

Inductive attempt : Type :=
| PageSource (html : string)
| WebDriverException
| OtherException (e : exn).

Fixpoint fetch_loop (remaining : nat) (driver : nat → attempt) (n : nat)
  : option (result string) * nat :=
  match remaining with
  | 0 => (None, 0)
  | S remaining =>
      match driver n with
      | PageSource html => (Some (Ok html), 0)
      | WebDriverException =>
          let '(outcome, sleeps) := fetch_loop remaining driver (S n) in
          (outcome, S sleeps)
      | OtherException e => (Some (Raise e), 0)
      end
  end.

Definition fetch_failed_message (url : string) (max_retries : Z) : string :=
  "Failed to fetch " +:+ url +:+ " after " +:+ pretty max_retries
                     +:+ " attempts.".

Definition fetch (max_retries : Z) (url : string) (driver : nat → attempt)
  : result string * nat :=
  match fetch_loop (Z.to_nat max_retries) driver 0 with
  | (Some outcome, sleeps) => (outcome, sleeps)
  | (None, sleeps) =>
      (Raise (Exception_ (fetch_failed_message url max_retries)), sleeps)
  end.

(** ** build_dataset, up to the texts and labels

    [scrape] stands for [scrape_text_from_url]: the text of a page, or
    the exception the scraping ends in.  A URL whose scraping or
    splitting raises is logged and passed over. *)




(** * Proofs *)

(** ** Induction over nested trees *)

Lemma PageElement_nested_ind (P : PageElement → Prop) :
  (∀ text, P (NavigableString text)) →
  (∀ name class_ contents, Forall P contents → P (Tag name class_ contents)) →
  ∀ element, P element.
Proof.
  intros Hstr Htag. fix IH 1. intros [text|name class_ contents].
  - apply Hstr.
  - apply Htag. induction contents as [|c cs IHcs]; constructor.
    + apply IH.
    + apply IHcs.
Qed.

Lemma ntree_nested_ind (P : ntree → Prop) :
  (∀ a tg cls kids, Forall P kids → P (NT a tg cls kids)) →
  ∀ t, P t.
Proof.
  intros Hnode. fix IH 1. intros [a tg cls kids].
  apply Hnode. induction kids as [|k ks IHks]; constructor.
  - apply IH.
  - apply IHks.
Qed.

Lemma elem_of_flat_map {A B} (f : A → list B) (l : list A) (x : B) :
  x ∈ flat_map f l ↔ ∃ y, y ∈ l ∧ x ∈ f y.
Proof.
  rewrite list_elem_of_In, in_flat_map. split.
  - intros (y & ? & ?). exists y. by rewrite !list_elem_of_In.
  - intros (y & ? & ?). exists y. by rewrite <- !list_elem_of_In.
Qed.

Lemma Forall_flat_map {A B} (P : B → Prop) (f : A → list B) (l : list A) :
  Forall P (flat_map f l) ↔ Forall (fun x => Forall P (f x)) l.
Proof.
  induction l as [|x l IH]; simpl.
  - split; constructor.
  - rewrite Forall_app, Forall_cons, IH. tauto.
Qed.

(** ** Trees survive growth of the arena *)

Lemma is_tree_inv h par a tg cls kids :
  is_tree h par (NT a tg cls kids) →
  h !! a = Some (Node tg cls (root_addr <$> kids) par) ∧
  Forall (is_tree h (Some a)) kids.
Proof. inversion 1; subst; auto. Qed.

Lemma is_tree_prefix h h' t :
  h `prefix_of` h' → ∀ par, is_tree h par t → is_tree h' par t.
Proof.
  intros Hpre. induction t as [a tg cls kids IH] using ntree_nested_ind.
  intros par [Ha Hkids]%is_tree_inv. constructor.
  - eapply prefix_lookup_Some; eauto.
  - rewrite Forall_forall in IH, Hkids |- *. intros k Hk. eauto.
Qed.

Lemma is_tree_alter f a h t :
  a ∉ preorder t → ∀ par, is_tree h par t → is_tree (alter f a h) par t.
Proof.
  induction t as [b tg cls kids IH] using ntree_nested_ind.
  intros Hnot par [Hb Hkids]%is_tree_inv. simpl in Hnot. constructor.
  - rewrite list_lookup_alter_ne; [done|]. intros ->. apply Hnot. left.
  - rewrite Forall_forall in IH, Hkids |- *. intros k Hk.
    apply IH; [done| |by apply Hkids].
    intros Hin. apply Hnot. right. apply elem_of_flat_map. eauto.
Qed.

Lemma root_in_preorder t : root_addr t ∈ preorder t.
Proof. destruct t; simpl. left. Qed.

Lemma addrs_within_mono lo lo' hi hi' t :
  lo' ≤ lo → hi ≤ hi' → addrs_within lo hi t → addrs_within lo' hi' t.
Proof.
  unfold addrs_within. intros ?? Hall.
  eapply Forall_impl; [exact Hall|]. simpl. lia.
Qed.

Lemma addrs_within_not_in lo hi a t :
  a < lo → addrs_within lo hi t → a ∉ preorder t.
Proof.
  unfold addrs_within. rewrite Forall_forall. intros Hlt Hall Hin.
  specialize (Hall _ Hin). lia.
Qed.

(** ** The builder lays out a tree *)

Lemma build_children_cons node c cs h :
  build_children node (c :: cs) h =
  build_children node cs
    (match _build_tree c (Some node) h with
     | (Some child_node, h') => append_child node child_node h'
     | (None, h') => h'
     end).
Proof. reflexivity. Qed.

Lemma build_tree_tag name class_ contents par h :
  _build_tree (Tag (Some name) class_ contents) par h =
  (Some (length h),
   build_children (length h) contents
     (h ++ [Node name (default [] class_) [] par])).
Proof. reflexivity. Qed.

Lemma build_children_spec a tg cls par contents :
  Forall build_spec contents →
  ∀ h done,
    h !! a = Some (Node tg cls (root_addr <$> done) par) →
    Forall (is_tree h (Some a)) done →
    Forall (addrs_within (S a) (length h)) done →
    ∃ new,
      let h' := build_children a contents h in
      h' !! a = Some (Node tg cls (root_addr <$> (done ++ new)) par) ∧
      Forall (is_tree h' (Some a)) (done ++ new) ∧
      Forall (addrs_within (S a) (length h')) (done ++ new) ∧
      erase <$> new = omap built_shape contents ∧
      take a h' = take a h ∧
      length h ≤ length h'.
Proof.
  induction 1 as [|c cs Hc _ IH]; intros h done Ha Hdone Hin.
  - exists []. simpl. rewrite app_nil_r. by split_and!.
  - rewrite build_children_cons. specialize (Hc (Some a) h). simpl omap.
    pose proof (lookup_lt_Some _ _ _ Ha) as Hlt.
    destruct (built_shape c) as [s|].
    + destruct Hc as (t & h1 & -> & Hpre & Ht & Hroot & Herase & Hwin).
      set (h2 := append_child a (length h) h1).
      assert (length h2 = length h1) as Hlen2 by apply length_alter.
      pose proof (prefix_length _ _ Hpre) as Hle.
      destruct (IH h2 (done ++ [t])) as (new & H1 & H2 & H3 & H4 & H5 & H6).
      * unfold h2, append_child. rewrite list_lookup_alter_eq.
        rewrite (prefix_lookup_Some _ _ _ _ Ha Hpre). simpl.
        unfold set_children. simpl. rewrite fmap_app. simpl. by rewrite Hroot.
      * apply Forall_app. split.
        -- rewrite Forall_forall in Hdone, Hin |- *. intros k Hk.
           apply is_tree_alter.
           ++ eapply addrs_within_not_in; [|exact (Hin k Hk)]. lia.
           ++ eapply is_tree_prefix; eauto.
        -- constructor; [|constructor]. apply is_tree_alter; [|done].
           eapply addrs_within_not_in; [|exact Hwin]. lia.
      * rewrite Hlen2. apply Forall_app. split.
        -- eapply Forall_impl; [exact Hin|]. intros k.
           apply addrs_within_mono; lia.
        -- constructor; [|constructor].
           eapply addrs_within_mono; [| |exact Hwin]; lia.
      * exists (t :: new). simpl. rewrite <- app_assoc in H1, H2, H3.
        split_and!; try done.
        -- f_equal; [exact Herase|exact H4].
        -- rewrite H5. unfold h2, append_child. rewrite take_alter_ge by lia.
           destruct Hpre as [k ->]. apply take_app_le. lia.
        -- lia.
    + rewrite Hc. apply IH; auto.
Qed.

Lemma build_tree_spec element : build_spec element.
Proof.
  induction element as [text|name class_ contents IH]
    using PageElement_nested_ind; intros par h0.
  - reflexivity.
  - destruct name as [name|]; [|reflexivity].
    simpl built_shape. rewrite build_tree_tag.
    set (a := length h0). set (cls := default [] class_).
    set (h1 := h0 ++ [Node name cls [] par]).
    destruct (build_children_spec a name cls par contents IH h1 [])
      as (new & Hnode & Hkids & Hwin & Hshape & Htake & Hlen).
    { unfold h1, a. by rewrite lookup_app_r, Nat.sub_diag by lia. }
    { constructor. }
    { constructor. }
    simpl in *. assert (length h1 = S a) as Hlen1.
    { unfold h1, a. rewrite length_app. simpl. lia. }
    exists (NT a name cls new), (build_children a contents h1).
    split; [done|]. split; [|split; [|split; [|split]]].
    + exists (drop a (build_children a contents h1)).
      rewrite <- (take_drop a (build_children a contents h1)) at 1.
      f_equal. rewrite Htake. unfold h1, a. apply take_app_length.
    + by constructor.
    + done.
    + simpl. by rewrite Hshape.
    + unfold addrs_within. simpl. constructor; [lia|].
      apply Forall_flat_map. eapply Forall_impl; [exact Hwin|].
      intros k. apply addrs_within_mono; lia.
Qed.

Lemma build_tree_some element par h0 root h :
  _build_tree element par h0 = (Some root, h) →
  ∃ t, is_tree h par t ∧ root_addr t = root ∧
       Some (erase t) = built_shape element ∧
       h0 `prefix_of` h ∧ addrs_within (length h0) (length h) t.
Proof.
  intros Hrun. pose proof (build_tree_spec element par h0) as Hspec.
  destruct (built_shape element) as [s|].
  - destruct Hspec as (t & h' & Heq & ? & ? & ? & ? & ?).
    rewrite Hrun in Heq. injection Heq as -> ->.
    exists t. split_and!; try done. by f_equal.
  - rewrite Hrun in Hspec. discriminate.
Qed.

(** ** Parent references in a tree *)

Lemma is_tree_parent_link h t :
  ∀ par, is_tree h par t →
  ∀ a, a ∈ preorder t →
  ∃ n, h !! a = Some n ∧
       ((a = root_addr t ∧ parent n = par) ∨
        (∃ p pn, parent n = Some p ∧ h !! p = Some pn ∧ a ∈ children pn)).
Proof.
  induction t as [a0 tg cls kids IH] using ntree_nested_ind.
  intros par [Ha0 Hkids]%is_tree_inv a Hin. simpl in Hin.
  apply elem_of_cons in Hin as [->|Hin].
  - eexists. split; [exact Ha0|]. left. done.
  - apply elem_of_flat_map in Hin as (k & Hk & Hin).
    rewrite Forall_forall in IH, Hkids.
    destruct (IH k Hk (Some a0) (Hkids k Hk) a Hin) as (n & Hn & Hcase).
    exists n. split; [done|]. right.
    destruct Hcase as [[-> Hpar]|Hdeep]; [|done].
    eexists a0, _. split_and!; [done|exact Ha0|]. simpl.
    apply list_elem_of_fmap. eauto.
Qed.

Lemma is_tree_child_closed h t :
  ∀ par, is_tree h par t →
  ∀ a n c, a ∈ preorder t → h !! a = Some n → c ∈ children n →
  c ∈ preorder t.
Proof.
  induction t as [a0 tg cls kids IH] using ntree_nested_ind.
  intros par [Ha0 Hkids]%is_tree_inv a n c Hin Hn Hc. simpl in *.
  rewrite Forall_forall in IH, Hkids.
  apply elem_of_cons in Hin as [->|Hin].
  - rewrite Ha0 in Hn. injection Hn as <-. simpl in Hc.
    apply list_elem_of_fmap in Hc as (k & -> & Hk).
    right. apply elem_of_flat_map. exists k. split; [done|].
    apply root_in_preorder.
  - apply elem_of_flat_map in Hin as (k & Hk & Hin).
    right. apply elem_of_flat_map. exists k. split; [done|].
    eapply IH; eauto.
Qed.

Lemma reachable_preorder h par t a :
  is_tree h par t → reachable h (root_addr t) a → a ∈ preorder t.
Proof.
  intros Ht. induction 1 as [|a n c _ IH Hn Hc].
  - apply root_in_preorder.
  - eapply is_tree_child_closed; eauto.
Qed.

Lemma reachable_trans h r a b :
  reachable h r a → reachable h a b → reachable h r b.
Proof.
  intros Hra. induction 1 as [|b n c _ IH Hn Hc]; [done|].
  eapply reachable_child; eauto.
Qed.

Lemma preorder_reachable h t :
  ∀ par, is_tree h par t → ∀ a, a ∈ preorder t → reachable h (root_addr t) a.
Proof.
  induction t as [a0 tg cls kids IH] using ntree_nested_ind.
  intros par [Ha0 Hkids]%is_tree_inv a Hin. simpl in *.
  rewrite Forall_forall in IH, Hkids.
  apply elem_of_cons in Hin as [->|Hin]; [constructor|].
  apply elem_of_flat_map in Hin as (k & Hk & Hin).
  apply reachable_trans with (root_addr k).
  - eapply reachable_child; [constructor|exact Ha0|]. simpl.
    apply list_elem_of_fmap. eauto.
  - eapply IH; eauto.
Qed.

(** Every node of a tree is itself the root of a tree, so what holds of
    the root of any tree holds wherever the cursor stands. *)
Lemma is_tree_subtree h t :
  ∀ par, is_tree h par t →
  ∀ a, a ∈ preorder t →
  ∃ par' t', is_tree h par' t' ∧ root_addr t' = a.
Proof.
  induction t as [a0 tg cls kids IH] using ntree_nested_ind.
  intros par Ht a Hin. simpl in Hin.
  apply elem_of_cons in Hin as [->|Hin]; [by exists par, (NT a0 tg cls kids)|].
  apply is_tree_inv in Ht as [_ Hkids].
  apply elem_of_flat_map in Hin as (k & Hk & Hin).
  rewrite Forall_forall in IH, Hkids. eapply IH; eauto.
Qed.

(** C1.  In the arena a run of the builder returns together with a root,
    every node met when following child references from that root either
    has no parent reference or is found, under its own address, in the
    child list of the node its parent reference names; and the root is the
    one node among them without a parent reference. *)
Theorem build_tree_parent_links soup h0 root h :
  _build_tree soup None h0 = (Some root, h) →
  (∀ a, reachable h root a →
     ∃ n, h !! a = Some n ∧
          ∀ p, parent n = Some p →
               ∃ pn, h !! p = Some pn ∧ a ∈ children pn) ∧
  (exists! a, reachable h root a ∧ get_parent h a = None).
Proof.
  intros (t & Ht & <- & _)%build_tree_some. split.
  - intros a Ha%(reachable_preorder _ _ _ _ Ht).
    destruct (is_tree_parent_link _ _ _ Ht a Ha) as (n & Hn & Hcase).
    exists n. split; [done|]. intros p Hp.
    destruct Hcase as [[_ Hnone]|(p' & pn & Hp' & Hpn & Hin)].
    + congruence.
    + rewrite Hp in Hp'. injection Hp' as <-. eauto.
  - exists (root_addr t). split.
    + split; [constructor|].
      destruct (is_tree_parent_link _ _ _ Ht _ (root_in_preorder t))
        as (n & Hn & Hcase).
      unfold get_parent. rewrite Hn.
      destruct t; apply is_tree_inv in Ht as [Hroot _]. simpl in *.
      rewrite Hroot in Hn. by injection Hn as <-.
    + intros a [Ha%(reachable_preorder _ _ _ _ Ht) Hnone].
      destruct (is_tree_parent_link _ _ _ Ht a Ha) as (n & Hn & Hcase).
      unfold get_parent in Hnone. rewrite Hn in Hnone.
      destruct Hcase as [[-> _]|(p & pn & Hp & _)]; [done|congruence].
Qed.

Lemma build_tree_parent_links_witness :
  (∀ a, reachable sample_heap 0 a →
     ∃ n, sample_heap !! a = Some n ∧
          ∀ p, parent n = Some p →
               ∃ pn, sample_heap !! p = Some pn ∧ a ∈ children pn) ∧
  (exists! a, reachable sample_heap 0 a ∧ get_parent sample_heap a = None).
Proof. exact (build_tree_parent_links sample_soup [] 0 sample_heap eq_refl). Defined.

(** ** Nodes without a name *)

Lemma build_tree_without_name element parent h :
  element_name element = None → _build_tree element parent h = (None, h).
Proof.
  destruct element as [text|[name|] class_ contents];
    [reflexivity|discriminate|reflexivity].
Qed.

Lemma build_children_without_names node contents h :
  Forall (fun c => element_name c = None) contents →
  build_children node contents h = h.
Proof.
  induction 1 as [|c cs Hc _ IH]; [done|].
  by rewrite build_children_cons, build_tree_without_name.
Qed.






(** The condition is needed.  A node without a name that holds an element
    is no outcome of parsing, but such a node can be made by hand, and
    the builder then passes over what it holds: the element [p] is not
    found and [div] gets no child. *)
Lemma build_tree_wrapper_hand_made :
  parsed wrapped_soup = false ∧
  _build_tree wrapped_soup None [] = (Some 0, [Node "div" [] [] None]) ∧
  discovered_shapes wrapped_soup = [Shape "div" [] [Shape "p" [] []]].
Proof. by split_and!. Qed.

(** C5, as the code has it.  The root object of a parse carries an element
    name, so the builder call of the constructor always yields a Node and
    never none.  When the document holds no element, the result is that
    root Node alone, with an empty child list: an ordinary result, not an
    error. *)
Theorem parser_root_is_node soup name :
  element_name soup = Some name →
  (∃ h, HTMLParser_root soup = (Some 0, h)) ∧
  (Forall (fun c => element_names c = []) (descendants soup) →
   HTMLParser_root soup
   = (Some 0, [Node name (element_classes soup) [] None])).
Proof.
  intros Hname.
  destruct soup as [text|[name'|] class_ contents]; try done.
  injection Hname as ->. unfold HTMLParser_root. rewrite build_tree_tag.
  split; [eauto|]. intros Hnone. cbn [element_classes].
  fold (build_children 0 contents [Node name (default [] class_) [] None]).
  rewrite build_children_without_names; [done|].
  apply Forall_forall. intros c Hc.
  rewrite Forall_forall in Hnone.
  assert (element_names c = []) as Hnames.
  { apply Hnone. cbn [descendants]. apply elem_of_flat_map.
    exists c. split; [done|left]. }
  by destruct c as [text|[name'|] class' contents'].
Qed.

Lemma parser_root_is_node_witness :
  HTMLParser_root (Tag (Some "[document]") None [NavigableString "plain text"])
  = (Some 0, [Node "[document]" [] [] None]).
Proof.
  apply (proj2 (parser_root_is_node
                  (Tag (Some "[document]") None [NavigableString "plain text"])
                  "[document]" eq_refl)).
  repeat constructor.
Defined.

(** C5, as the claim has it, fails: the parse of a document that is plain
    text holds no element, and the builder yields a Node for it, not
    none. *)
Lemma parser_plain_text_counterexample :
  let soup :=
    Tag (Some "[document]") None [NavigableString "plain text"] in
  parsed soup = true ∧
  Forall (fun c => element_names c = []) (descendants soup) ∧
  HTMLParser_root soup = (Some 0, [Node "[document]" [] [] None]) ∧
  (HTMLParser_root soup).1 ≠ None.
Proof. split_and!; [done|repeat constructor|done|done]. Qed.

(** ** Text blocks of the sample document *)

(** C4, as the code has it.  For the document
    <div class="a"><p>X</p><span class="b">Y</span></div> the blocks are
    div: XY, p: X and span: Y: the text of a block is all the text below
    it, so [div] has an entry made of the text of its two children. *)
Theorem extract_text_by_blocks_sample :
  extract_text_by_blocks sample_soup
  = {[ "div" := ["XY"]; "p" := ["X"]; "span" := ["Y"] ]}.
Proof. vm_compute. reflexivity. Qed.

(** C4, as the claim has it, fails: the result is not the mapping with
    [p] and [span] alone, it has an entry for [div]. *)
Lemma extract_text_by_blocks_sample_counterexample :
  extract_text_by_blocks sample_soup ≠ {[ "p" := ["X"]; "span" := ["Y"] ]} ∧
  extract_text_by_blocks sample_soup !! "div" = Some ["XY"].
Proof.
  split; [|by vm_compute].
  intros Heq. apply (f_equal (fun m => m !! "div")) in Heq.
  vm_compute in Heq. discriminate.
Qed.

(** ** Moving the cursor *)

Lemma contains_empty s : contains "" s = true.
Proof. by destruct s. Qed.

Lemma prefix_iff_app (s1 s2 : string) :
  String.prefix s1 s2 = true ↔ ∃ post, s2 = s1 +:+ post.
Proof.
  revert s2. induction s1 as [|a s1 IH]; intros s2.
  - split; [intros _; by exists s2|intros _; by destruct s2].
  - destruct s2 as [|b s2]; cbn [String.prefix].
    + split; [discriminate|intros [post Hpost]; discriminate].
    + destruct (ascii_dec a b) as [->|Hne].
      * rewrite IH. split; intros [post Hpost]; exists post.
        -- by rewrite Hpost.
        -- by injection Hpost.
      * split; [discriminate|]. intros [post Hpost]. by injection Hpost.
Qed.

(** [contains] is Python's [in] on strings: the text occurs somewhere. *)
Lemma contains_iff_app (sub s : string) :
  contains sub s = true ↔ ∃ pre post, s = pre +:+ sub +:+ post.
Proof.
  induction s as [|c s IH]; cbn [contains].
  - rewrite orb_false_r, prefix_iff_app. split.
    + intros [post Hpost]. by exists "", post.
    + intros ([|c pre] & post & Hpost); [by exists post|discriminate].
  - rewrite orb_true_iff, prefix_iff_app, IH. split.
    + intros [[post Hpost]|(pre & post & Hpost)].
      * by exists "", post.
      * exists (String c pre), post. by rewrite Hpost.
    + intros ([|c' pre] & post & Hpost).
      * left. by exists post.
      * right. exists pre, post. by injection Hpost.
Qed.

Lemma filter_first_match {A} (f : A → bool) pre x post :
  Forall (fun y => f y = false) pre → f x = true →
  List.filter f (pre ++ x :: post) = x :: List.filter f post.
Proof.
  intros Hpre Hx. induction Hpre as [|y pre Hy _ IH]; simpl.
  - by rewrite Hx.
  - by rewrite Hy.
Qed.

Lemma filter_no_match {A} (f : A → bool) l :
  Forall (fun y => f y = false) l → List.filter f l = [].
Proof.
  induction 1 as [|y l Hy _ IH]; simpl; [done|]. by rewrite Hy.
Qed.

Lemma eqb_dotdot arg : arg ≠ ".." → String.eqb arg ".." = false.
Proof. intros. by apply String.eqb_neq. Qed.

Section explorer_facts.
Variable py_int : string → option Z.

(** C6.  A command that cannot be carried out prints its notice and
    leaves the explorer as it was: going up from a node without a
    parent, an index outside the child list, a text no child's class
    string contains.  Going up from a node with a parent puts the
    cursor on that parent. *)
Theorem change_directory_miss h self :
  (get_parent h (current_node self) = None →
   change_directory py_int h self ".." = (self, Some at_root_notice)) ∧
  (∀ arg idx,
     arg ≠ ".." → py_int arg = Some idx →
     ¬ (0 ≤ idx < Z.of_nat (length (get_children h (current_node self))))%Z →
     change_directory py_int h self arg = (self, Some out_of_range_notice)) ∧
  (∀ arg,
     arg ≠ ".." → py_int arg = None →
     Forall (fun child => class_match h arg child = false)
            (get_children h (current_node self)) →
     change_directory py_int h self arg = (self, Some no_match_notice)) ∧
  (∀ p,
     get_parent h (current_node self) = Some p →
     change_directory py_int h self ".." = (Explorer p, None)).
Proof.
  split_and!.
  - intros Hroot. unfold change_directory. simpl. by rewrite Hroot.
  - intros arg idx Hne Hint Hout. unfold change_directory.
    rewrite (eqb_dotdot _ Hne), Hint. by rewrite bool_decide_eq_false_2.
  - intros arg Hne Hint Hnone. unfold change_directory.
    rewrite (eqb_dotdot _ Hne), Hint. by rewrite filter_no_match.
  - intros p Hp. unfold change_directory. simpl. by rewrite Hp.
Qed.

(** C7.  When the argument is a text (not [..], and [int] rejects it)
    and some child's class string contains it, the cursor moves to the
    first such child in the order of the child list, however many
    others match. *)
Theorem change_directory_first_match h self arg pre child post :
  arg ≠ ".." → py_int arg = None →
  get_children h (current_node self) = pre ++ child :: post →
  Forall (fun c => class_match h arg c = false) pre →
  class_match h arg child = true →
  change_directory py_int h self arg = (Explorer child, None).
Proof.
  intros Hne Hint Hkids Hpre Hchild. unfold change_directory.
  rewrite (eqb_dotdot _ Hne), Hint, Hkids.
  by rewrite (filter_first_match _ _ _ _ Hpre Hchild).
Qed.

(** C10.  With the empty text as argument every child matches, so from
    a node that has children the cursor moves to the first of them. *)
Theorem change_directory_empty_text h self child rest :
  py_int "" = None →
  get_children h (current_node self) = child :: rest →
  Forall (fun c => class_match h "" c = true) (child :: rest) ∧
  change_directory py_int h self "" = (Explorer child, None).
Proof.
  intros Hint Hkids. split.
  - apply Forall_forall. intros c _. apply contains_empty.
  - unfold change_directory. simpl String.eqb. cbv iota.
    rewrite Hint, Hkids. simpl. unfold class_match at 1.
    by rewrite contains_empty.
Qed.
End explorer_facts.

Lemma change_directory_miss_witness :
  change_directory decimal_int sample_heap (Explorer 0) ".."
    = (Explorer 0, Some at_root_notice) ∧
  change_directory decimal_int sample_heap (Explorer 1) "2"
    = (Explorer 1, Some out_of_range_notice) ∧
  change_directory decimal_int sample_heap (Explorer 1) "-1"
    = (Explorer 1, Some out_of_range_notice) ∧
  change_directory decimal_int sample_heap (Explorer 1) "zz"
    = (Explorer 1, Some no_match_notice) ∧
  change_directory decimal_int sample_heap (Explorer 3) ".."
    = (Explorer 1, None).
Proof.
  pose proof (change_directory_miss decimal_int sample_heap) as H.
  split_and!.
  - apply (H (Explorer 0)). reflexivity.
  - apply (proj1 (proj2 (H (Explorer 1))) "2" 2%Z);
      [discriminate|reflexivity|simpl; lia].
  - apply (proj1 (proj2 (H (Explorer 1))) "-1" (-1)%Z);
      [discriminate|reflexivity|simpl; lia].
  - apply (proj1 (proj2 (proj2 (H (Explorer 1)))) "zz");
      [discriminate|reflexivity|].
    repeat constructor.
  - apply (proj2 (proj2 (proj2 (H (Explorer 3))))). reflexivity.
Defined.

Lemma change_directory_first_match_witness :
  change_directory decimal_int
    [Node "ul" [] [1; 2; 3] None; Node "li" ["odd"] [] (Some 0);
     Node "li" ["even"; "x"] [] (Some 0); Node "li" ["even"; "y"] [] (Some 0)]
    (Explorer 0) "even"
  = (Explorer 2, None).
Proof.
  apply (change_directory_first_match decimal_int _ (Explorer 0) "even" [1] 2 [3]);
    [discriminate|reflexivity|reflexivity|repeat constructor|reflexivity].
Defined.

Lemma change_directory_empty_text_witness :
  change_directory decimal_int sample_heap (Explorer 1) "" = (Explorer 2, None).
Proof.
  exact (proj2 (change_directory_empty_text decimal_int sample_heap
                  (Explorer 1) 2 [3] eq_refl eq_refl)).
Defined.

(** ** Searching a subtree *)

Lemma height_kid k kids fuel :
  k ∈ kids → S (max_list (height <$> kids)) ≤ S fuel → height k ≤ fuel.
Proof.
  intros Hk Hle.
  assert (height k ≤ max_list (height <$> kids)); [|lia].
  apply max_list_elem_of_le, list_elem_of_fmap. eauto.
Qed.

Lemma filter_all {A} (f : A → bool) l :
  Forall (fun y => f y = true) l → List.filter f l = l.
Proof.
  induction 1 as [|y l Hy _ IH]; simpl; [done|]. by rewrite Hy, IH.
Qed.

Lemma is_tree_lookup h par t a :
  is_tree h par t → a ∈ preorder t → is_Some (h !! a).
Proof.
  intros Ht Ha. destruct (is_tree_parent_link _ _ _ Ht a Ha) as (n & -> & _).
  eauto.
Qed.

Section search_facts.
Variable lower : string → string.

Lemma search_children_spec fuel h q kids :
  Forall (fun k => ∀ results,
            search_tree lower fuel h q (root_addr k) results
            = Some (results ++
                    List.filter (identifier_matches lower h q) (preorder k)))
         kids →
  ∀ results,
    fold_left
      (fun results child =>
         results ← results; search_tree lower fuel h q child results)
      (root_addr <$> kids) (Some results)
    = Some (results ++
            List.filter (identifier_matches lower h q)
                        (flat_map preorder kids)).
Proof.
  induction 1 as [|k kids Hk _ IH]; intros results; simpl.
  - by rewrite app_nil_r.
  - rewrite Hk, IH, List.filter_app. by rewrite app_assoc.
Qed.

Lemma search_tree_spec h q t :
  ∀ par, is_tree h par t →
  ∀ fuel results, height t ≤ fuel →
    search_tree lower fuel h q (root_addr t) results
    = Some (results ++
            List.filter (identifier_matches lower h q) (preorder t)).
Proof.
  induction t as [a tg cls kids IH] using ntree_nested_ind.
  intros par [Ha Hkids]%is_tree_inv fuel results Hfuel.
  destruct fuel as [|fuel]; [simpl in Hfuel; lia|].
  cbn [search_tree root_addr]. rewrite Ha. cbn [mbind option_bind children].
  rewrite search_children_spec.
  - cbn [preorder List.filter]. unfold identifier_matches at 2. rewrite Ha.
    destruct (contains q _); [|done]. by rewrite <- app_assoc.
  - rewrite Forall_forall in IH, Hkids |- *. intros k Hk results'.
    eapply IH; eauto. eapply height_kid; eauto.
Qed.

(** C8.  From the node the cursor is on, the search goes through the
    subtree in pre-order (the nodes met when following child references
    from that node) and keeps exactly those whose identifier, in lower
    case, contains the query in lower case; the empty query keeps them
    all. *)
Theorem search_preorder h par t fuel query :
  is_tree h par t → height t ≤ fuel →
  (∀ a, a ∈ preorder t ↔ reachable h (root_addr t) a) ∧
  search lower fuel h (Explorer (root_addr t)) query
  = Some (List.filter (identifier_matches lower h (lower query))
                      (preorder t)) ∧
  (lower "" = "" →
   search lower fuel h (Explorer (root_addr t)) "" = Some (preorder t)).
Proof.
  intros Ht Hfuel. unfold search. simpl. split_and!.
  - intros a. split; [by eapply preorder_reachable|by eapply reachable_preorder].
  - by rewrite (search_tree_spec _ _ _ _ Ht).
  - intros ->. rewrite (search_tree_spec _ _ _ _ Ht) by done. simpl.
    f_equal. apply filter_all, Forall_forall. intros a Ha.
    destruct (is_tree_lookup _ _ _ _ Ht Ha) as [n Hn].
    unfold identifier_matches. rewrite Hn. apply contains_empty.
Qed.
End search_facts.

Lemma sample_is_tree : is_tree sample_heap None sample_tree.
Proof. repeat (constructor; try reflexivity). Qed.

Lemma search_preorder_witness :
  search ascii_lower 3 sample_heap (Explorer 0) "A" = Some [1; 3] ∧
  search ascii_lower 3 sample_heap (Explorer 0) "" = Some [0; 1; 2; 3].
Proof.
  destruct (search_preorder ascii_lower sample_heap None sample_tree 3 "A")
    as (_ & Hq & _); [exact sample_is_tree|simpl; lia|].
  destruct (search_preorder ascii_lower sample_heap None sample_tree 3 "")
    as (_ & _ & He); [exact sample_is_tree|simpl; lia|].
  split; [exact Hq|exact (He eq_refl)].
Defined.

(** ** Strings and lines *)

Lemma str_app_cons c (s1 s2 : string) :
  String c s1 +:+ s2 = String c (s1 +:+ s2).
Proof. reflexivity. Qed.

Lemma str_app_nil_l (s : string) : "" +:+ s = s.
Proof. reflexivity. Qed.

Lemma str_app_assoc (s1 s2 s3 : string) :
  (s1 +:+ s2) +:+ s3 = s1 +:+ s2 +:+ s3.
Proof.
  induction s1 as [|c s1 IH]; [done|]. by rewrite !str_app_cons, IH.
Qed.

Lemma str_app_nil_r (s : string) : s +:+ "" = s.
Proof. induction s as [|c s IH]; [done|]. by rewrite str_app_cons, IH. Qed.

Lemma has_char_app c (s1 s2 : string) :
  has_char c (s1 +:+ s2) = has_char c s1 || has_char c s2.
Proof.
  induction s1 as [|x s1 IH]; [done|].
  rewrite str_app_cons. cbn [has_char]. by rewrite IH, orb_assoc.
Qed.

Lemma no_line_break_app (s1 s2 : string) :
  no_line_break s1 → no_line_break s2 → no_line_break (s1 +:+ s2).
Proof.
  unfold no_line_break. intros H1 H2. by rewrite has_char_app, H1, H2.
Qed.

Lemma split_on_clean c s : has_char c s = false → split_on c s = [s].
Proof.
  induction s as [|x s IH]; cbn; [done|].
  intros [Hx Hs]%orb_false_iff. by rewrite Hx, IH.
Qed.

Lemma split_on_app c (s1 s2 : string) :
  has_char c s1 = false →
  split_on c (s1 +:+ String c s2) = s1 :: split_on c s2.
Proof.
  induction s1 as [|x s1 IH].
  - intros _. rewrite str_app_nil_l. cbn [split_on].
    by rewrite Ascii.eqb_refl.
  - intros [Hx Hs]%orb_false_iff. rewrite str_app_cons. cbn [split_on].
    by rewrite Hx, IH.
Qed.

Lemma join_LF_cons l ls : join LF (l :: ls) = l +:+ lf_tail ls.
Proof.
  revert l. induction ls as [|l' ls IH]; intros l.
  - cbn. by rewrite str_app_nil_r.
  - change (join LF (l :: l' :: ls)) with (l +:+ LF +:+ join LF (l' :: ls)).
    by rewrite IH.
Qed.

Lemma lf_tail_app ls1 ls2 : lf_tail (ls1 ++ ls2) = lf_tail ls1 +:+ lf_tail ls2.
Proof.
  induction ls1 as [|l ls1 IH]; [done|].
  change (lf_tail ((l :: ls1) ++ ls2)) with (LF +:+ l +:+ lf_tail (ls1 ++ ls2)).
  change (lf_tail (l :: ls1)) with (LF +:+ l +:+ lf_tail ls1).
  by rewrite IH, !str_app_assoc.
Qed.

Lemma lines_lf_tail l ls :
  no_line_break l → Forall no_line_break ls →
  lines (l +:+ lf_tail ls) = l :: ls.
Proof.
  intros Hl Hls. revert l Hl. induction Hls as [|l' ls Hl' _ IH]; intros l Hl.
  - cbn. rewrite str_app_nil_r. by apply split_on_clean.
  - change (lf_tail (l' :: ls)) with (String "010"%char (l' +:+ lf_tail ls)).
    unfold lines in *. rewrite split_on_app by done. by rewrite IH.
Qed.

(** ** Rendering a subtree *)

Lemma render_lines_cons t prefix is_last :
  ∃ l ls, render_lines t prefix is_last = l :: ls.
Proof. destruct t. cbn. eauto. Qed.

Lemma render_children_spec fuel h new_prefix total kids :
  Forall (fun k => ∀ prefix is_last,
            tree_to_string fuel h (root_addr k) prefix is_last
            = Some (join LF (render_lines k prefix is_last)))
         kids →
  ∀ i acc,
    i + length kids = total →
    fold_left
      (fun tree_str '(j, child) =>
         tree_str ← tree_str;
         sub ← tree_to_string fuel h child new_prefix
                 (bool_decide (j = total - 1));
         Some (tree_str +:+ LF +:+ sub))
      (zip (seq i (length kids)) (root_addr <$> kids)) (Some acc)
    = Some (acc +:+ lf_tail (sibling_lines render_lines new_prefix kids)).
Proof.
  induction 1 as [|k kids Hk _ IH]; intros i acc Htotal.
  - cbn. by rewrite str_app_nil_r.
  - cbn [length seq fmap list_fmap zip_with fold_left mbind option_bind].
    rewrite Hk. cbn [mbind option_bind]. cbn [length] in Htotal.
    rewrite IH by lia. f_equal. cbn [sibling_lines].
    assert (bool_decide (i = total - 1)
            = match kids with [] => true | _ => false end) as ->.
    { destruct kids; cbn [length] in Htotal.
      - apply bool_decide_eq_true_2. lia.
      - apply bool_decide_eq_false_2. lia. }
    destruct (render_lines_cons k new_prefix
                (match kids with [] => true | _ => false end))
      as (l & ls & ->).
    rewrite lf_tail_app, join_LF_cons.
    change (lf_tail (l :: ls)) with (LF +:+ l +:+ lf_tail ls).
    by rewrite !str_app_assoc.
Qed.

Lemma tree_to_string_spec h t :
  ∀ par, is_tree h par t →
  ∀ fuel prefix is_last, height t ≤ fuel →
    tree_to_string fuel h (root_addr t) prefix is_last
    = Some (join LF (render_lines t prefix is_last)).
Proof.
  induction t as [a tg cls kids IH] using ntree_nested_ind.
  intros par [Ha Hkids]%is_tree_inv fuel prefix is_last Hfuel.
  destruct fuel as [|fuel]; [simpl in Hfuel; lia|].
  cbn [tree_to_string root_addr]. rewrite Ha.
  cbn [mbind option_bind children classes tag]. unfold enumerate.
  rewrite length_fmap.
  rewrite (render_children_spec fuel h _ (length kids) kids).
  - cbn [render_lines]. rewrite join_LF_cons. unfold node_label.
    by rewrite !str_app_assoc.
  - rewrite Forall_forall in IH, Hkids |- *. intros k Hk prefix' is_last'.
    eapply IH; eauto. eapply height_kid; eauto.
  - lia.
Qed.

Lemma sibling_lines_Forall2 {B} (R : string → B → Prop) (f : ntree → list B)
    render prefix kids :
  Forall (fun k => ∀ is_last, Forall2 R (render k prefix is_last) (f k)) kids →
  Forall2 R (sibling_lines render prefix kids) (flat_map f kids).
Proof.
  induction 1 as [|k kids Hk _ IH]; cbn; [constructor|].
  apply Forall2_app; [apply Hk|apply IH].
Qed.

Lemma sibling_lines_Forall (P : string → Prop) render prefix kids :
  Forall (fun k => ∀ is_last, Forall P (render k prefix is_last)) kids →
  Forall P (sibling_lines render prefix kids).
Proof.
  induction 1 as [|k kids Hk _ IH]; cbn; [constructor|].
  apply Forall_app. split; [apply Hk|apply IH].
Qed.

Lemma render_lines_labels t :
  ∀ prefix is_last,
    Forall2 (fun line label => ∃ indent, line = indent +:+ label)
            (render_lines t prefix is_last) (labels t).
Proof.
  induction t as [a tg cls kids IH] using ntree_nested_ind.
  intros prefix is_last. cbn [render_lines labels]. constructor.
  - exists (prefix +:+ (if is_last then last_branch else mid_branch)).
    by rewrite str_app_assoc.
  - apply sibling_lines_Forall2. eapply Forall_impl; [exact IH|].
    intros k Hk is_last'. apply Hk.
Qed.

Lemma render_lines_clean t :
  ∀ prefix is_last,
    no_line_break prefix → Forall no_line_break (labels t) →
    Forall no_line_break (render_lines t prefix is_last).
Proof.
  induction t as [a tg cls kids IH] using ntree_nested_ind.
  intros prefix is_last Hprefix Hlabels. cbn [render_lines labels] in *.
  apply Forall_cons in Hlabels as [Hlabel Hkids].
  rewrite Forall_flat_map in Hkids. constructor.
  - apply no_line_break_app; [done|]. apply no_line_break_app; [|done].
    by destruct is_last.
  - apply sibling_lines_Forall. rewrite Forall_forall in IH, Hkids |- *.
    intros k Hk is_last'. apply IH; [done| |by apply Hkids].
    apply no_line_break_app; [done|]. by destruct is_last.
Qed.

Lemma labels_length t : length (labels t) = length (preorder t).
Proof.
  induction t as [a tg cls kids IH] using ntree_nested_ind.
  cbn [labels preorder length]. f_equal.
  induction IH as [|k kids Hk _ IHkids]; [done|].
  cbn [flat_map]. by rewrite !length_app, Hk, IHkids.
Qed.

(** C9.  The rendering of the subtree at a node is a list of lines joined
    by line feeds: one line for each node of the subtree, in pre-order,
    each ending in the tag and classes of its node.  When neither the
    prefix nor any tag or class holds a line feed (names that come from
    markup never do), these are the lines of the text itself. *)
Theorem tree_to_string_lines h par t fuel prefix is_last :
  is_tree h par t → height t ≤ fuel →
  ∃ ls,
    tree_to_string fuel h (root_addr t) prefix is_last = Some (join LF ls) ∧
    length ls = length (preorder t) ∧
    Forall2 (fun line label => ∃ indent, line = indent +:+ label)
            ls (labels t) ∧
    (no_line_break prefix → Forall no_line_break (labels t) →
     lines (join LF ls) = ls).
Proof.
  intros Ht Hfuel. exists (render_lines t prefix is_last).
  pose proof (render_lines_labels t prefix is_last) as Hlabels.
  split_and!.
  - by eapply tree_to_string_spec.
  - by rewrite (Forall2_length _ _ _ Hlabels), labels_length.
  - done.
  - intros Hprefix Hclean.
    pose proof (render_lines_clean t prefix is_last Hprefix Hclean) as Hls.
    destruct (render_lines_cons t prefix is_last) as (l & ls & Heq).
    rewrite Heq in Hls |- *. apply Forall_cons in Hls as [Hl Hls].
    rewrite join_LF_cons. by apply lines_lf_tail.
Qed.

Lemma tree_to_string_lines_witness :
  ∃ ls,
    tree_to_string 3 sample_heap 0 "" true = Some (join LF ls) ∧
    length ls = 4 ∧
    Forall2 (fun line label => ∃ indent, line = indent +:+ label)
            ls ["[document]"; "div (a)"; "p"; "span (b)"] ∧
    lines (join LF ls) = ls.
Proof.
  destruct (tree_to_string_lines sample_heap None sample_tree 3 "" true)
    as (ls & Hrun & Hlen & Hlabels & Hlines);
    [exact sample_is_tree|simpl; lia|].
  exists ls. split_and!; [exact Hrun|exact Hlen|exact Hlabels|].
  apply Hlines; [reflexivity|]. repeat constructor.
Defined.

(** ** Exporting a subtree *)

Lemma shape_nested_ind (P : shape → Prop) :
  (∀ tg cls kids, Forall P kids → P (Shape tg cls kids)) →
  ∀ s, P s.
Proof.
  intros Hnode. fix IH 1. intros [tg cls kids].
  apply Hnode. induction kids as [|k ks IHks]; constructor.
  - apply IH.
  - apply IHks.
Qed.

Lemma remove_parent_spec h t :
  ∀ par, is_tree h par t →
  ∀ fuel, height t ≤ fuel →
    remove_parent fuel h (root_addr t) = Some (shape_json (erase t)).
Proof.
  induction t as [a tg cls kids IH] using ntree_nested_ind.
  intros par [Ha Hkids]%is_tree_inv fuel Hfuel.
  destruct fuel as [|fuel]; [simpl in Hfuel; lia|].
  cbn [remove_parent root_addr]. rewrite Ha.
  cbn [mbind option_bind children classes tag].
  assert (mapM (remove_parent fuel h) (root_addr <$> kids)
          = Some (shape_json <$> (erase <$> kids))) as ->; [|done].
  apply mapM_Some. apply Forall2_fmap. apply Forall2_fmap_r.
  apply Forall_Forall2_diag.
  rewrite Forall_forall in IH, Hkids |- *. intros k Hk.
  eapply IH; eauto. eapply height_kid; eauto.
Qed.

Lemma shape_json_no_parent s : json_has_key "parent" (shape_json s) = false.
Proof.
  induction s as [tg cls kids IH] using shape_nested_ind.
  cbn [shape_json json_has_key existsb].
  assert (existsb (json_has_key "parent") (JString <$> cls) = false) as ->.
  { induction cls as [|c cls IHcls]; [done|]. cbn. exact IHcls. }
  assert (existsb (json_has_key "parent") (shape_json <$> kids) = false) as ->.
  { induction IH as [|k kids Hk _ IHkids]; [done|].
    cbn [fmap list_fmap existsb]. by rewrite Hk, IHkids. }
  reflexivity.
Qed.

Section export_facts.
Variable encode_basestring : string → string.

(** C3.  The export of a subtree has no key named parent at any depth,
    and its text depends on the shape of the subtree alone: two subtrees
    with the same tags, classes and children, wherever their nodes live,
    are written as the same text. *)
Theorem export_json_structural h1 par1 t1 fuel1 h2 par2 t2 fuel2 :
  is_tree h1 par1 t1 → height t1 ≤ fuel1 →
  is_tree h2 par2 t2 → height t2 ≤ fuel2 →
  erase t1 = erase t2 →
  ∃ exported text,
    remove_parent fuel1 h1 (root_addr t1) = Some exported ∧
    json_has_key "parent" exported = false ∧
    export_json encode_basestring fuel1 h1 (root_addr t1) = Some text ∧
    export_json encode_basestring fuel2 h2 (root_addr t2) = Some text.
Proof.
  intros Ht1 Hf1 Ht2 Hf2 Hshape.
  exists (shape_json (erase t1)),
         (dumps encode_basestring 0 (shape_json (erase t1))).
  unfold export_json.
  rewrite (remove_parent_spec _ _ _ Ht1 _ Hf1).
  rewrite (remove_parent_spec _ _ _ Ht2 _ Hf2), <- Hshape.
  split_and!; try done. apply shape_json_no_parent.
Qed.
End export_facts.

Lemma export_json_structural_witness :
  ∃ exported text,
    remove_parent 1 twin_heap 1 = Some exported ∧
    json_has_key "parent" exported = false ∧
    export_json quoted 1 twin_heap 1 = Some text ∧
    export_json quoted 1 twin_heap 2 = Some text.
Proof.
  apply (export_json_structural quoted
           twin_heap (Some 0) (NT 1 "li" ["x"] []) 1
           twin_heap (Some 0) (NT 2 "li" ["x"] []) 1).
  - repeat (constructor; try reflexivity).
  - simpl. lia.
  - repeat (constructor; try reflexivity).
  - simpl. lia.
  - reflexivity.
Defined.

(** * Further properties of the code *)

(** ** The built tree mirrors the document *)

(** X1.  The tree the builder returns has the shape of the document with
    the nameless nodes dropped: each Node carries the name of its element
    and its class list (empty when the element has none), and its
    children are the Nodes of the named children, in document order. *)
Theorem build_tree_shape soup par h0 root h :
  _build_tree soup par h0 = (Some root, h) →
  ∃ t, is_tree h par t ∧ root_addr t = root ∧
       built_shape soup = Some (erase t) ∧
       h0 `prefix_of` h.
Proof.
  intros (t & ? & ? & ? & ? & _)%build_tree_some. by exists t.
Qed.

Lemma build_tree_shape_witness :
  ∃ t, is_tree sample_heap None t ∧ root_addr t = 0 ∧
       built_shape sample_soup = Some (erase t) ∧
       [] `prefix_of` sample_heap.
Proof. exact (build_tree_shape sample_soup None [] 0 sample_heap eq_refl). Defined.

Lemma is_tree_child_parent h t :
  ∀ par, is_tree h par t →
  ∀ a c, a ∈ preorder t → c ∈ get_children h a → get_parent h c = Some a.
Proof.
  induction t as [a0 tg cls kids IH] using ntree_nested_ind.
  intros par [Ha0 Hkids]%is_tree_inv a c Hin Hc. simpl in Hin.
  rewrite Forall_forall in IH, Hkids.
  apply elem_of_cons in Hin as [->|Hin].
  - unfold get_children in Hc. rewrite Ha0 in Hc. simpl in Hc.
    apply list_elem_of_fmap in Hc as (k & -> & Hk).
    specialize (Hkids k Hk). destruct k as [b tg' cls' kids'].
    apply is_tree_inv in Hkids as [Hb _]. simpl.
    unfold get_parent. by rewrite Hb.
  - apply elem_of_flat_map in Hin as (k & Hk & Hin). eapply IH; eauto.
Qed.

Lemma is_tree_parent_in h t :
  ∀ par, is_tree h par t →
  ∀ a p, a ∈ preorder t → get_parent h a = Some p →
  p ∈ preorder t ∨ (a = root_addr t ∧ par = Some p).
Proof.
  induction t as [a0 tg cls kids IH] using ntree_nested_ind.
  intros par [Ha0 Hkids]%is_tree_inv a p Hin Hp. simpl in Hin.
  rewrite Forall_forall in IH, Hkids.
  apply elem_of_cons in Hin as [->|Hin].
  - right. unfold get_parent in Hp. rewrite Ha0 in Hp. simpl in *. done.
  - left. apply elem_of_flat_map in Hin as (k & Hk & Hin).
    destruct (IH k Hk (Some a0) (Hkids k Hk) a p Hin Hp) as [Hdeep|[_ Heq]].
    + simpl. right. apply elem_of_flat_map. eauto.
    + injection Heq as <-. simpl. left.
Qed.

(** X2.  In a built tree the two directions of the parent link agree:
    whatever a node of the tree lists as its child names that node as its
    parent, so no node is the child of two nodes. *)
Theorem build_tree_child_parent soup h0 root h :
  _build_tree soup None h0 = (Some root, h) →
  (∀ a c, reachable h root a → c ∈ get_children h a →
          get_parent h c = Some a) ∧
  (∀ a1 a2 c, reachable h root a1 → reachable h root a2 →
              c ∈ get_children h a1 → c ∈ get_children h a2 → a1 = a2).
Proof.
  intros (t & Ht & <- & _)%build_tree_some.
  assert (∀ a c, reachable h (root_addr t) a → c ∈ get_children h a →
                 get_parent h c = Some a) as Hlink.
  { intros a c Ha%(reachable_preorder _ _ _ _ Ht) Hc.
    eapply is_tree_child_parent; eauto. }
  split; [done|]. intros a1 a2 c H1 H2 Hc1 Hc2.
  pose proof (Hlink _ _ H1 Hc1) as Hp1. pose proof (Hlink _ _ H2 Hc2) as Hp2.
  congruence.
Qed.

Lemma build_tree_child_parent_witness :
  (∀ a c, reachable sample_heap 0 a → c ∈ get_children sample_heap a →
          get_parent sample_heap c = Some a) ∧
  (∀ a1 a2 c, reachable sample_heap 0 a1 → reachable sample_heap 0 a2 →
              c ∈ get_children sample_heap a1 →
              c ∈ get_children sample_heap a2 → a1 = a2).
Proof. exact (build_tree_child_parent sample_soup [] 0 sample_heap eq_refl). Defined.

(** ** Nodes are created in pre-order, each once *)

Lemma seq_join (a b c : nat) :
  a ≤ b → b ≤ c → seq a (b - a) ++ seq b (c - b) = seq a (c - a).
Proof.
  intros Hab Hbc. replace (c - a) with ((b - a) + (c - b)) by lia.
  rewrite seq_app. do 2 f_equal. lia.
Qed.

Lemma build_children_layout a tg cls par contents :
  Forall build_layout contents →
  ∀ h done,
    h !! a = Some (Node tg cls (root_addr <$> done) par) →
    Forall (is_tree h (Some a)) done →
    flat_map preorder done = seq (S a) (length h - S a) →
    ∃ new,
      let h' := build_children a contents h in
      h' !! a = Some (Node tg cls (root_addr <$> (done ++ new)) par) ∧
      Forall (is_tree h' (Some a)) (done ++ new) ∧
      flat_map preorder (done ++ new) = seq (S a) (length h' - S a) ∧
      take a h' = take a h ∧
      length h ≤ length h'.
Proof.
  induction 1 as [|c cs Hc _ IH]; intros h done Ha Hdone Hseq.
  - exists []. simpl. rewrite app_nil_r. by split_and!.
  - rewrite build_children_cons. specialize (Hc (Some a) h).
    pose proof (lookup_lt_Some _ _ _ Ha) as Hlt.
    destruct (built_shape c) as [s|]; [|rewrite Hc; by apply IH].
    destruct Hc as (t & h1 & -> & Hpre & Ht & Hroot & Hnew).
    set (h2 := append_child a (length h) h1).
    assert (length h2 = length h1) as Hlen2 by apply length_alter.
    pose proof (prefix_length _ _ Hpre) as Hle.
    assert (∀ k b, k ∈ done → b ∈ preorder k → S a ≤ b) as Hdone_lo.
    { intros k b Hk Hb.
      assert (b ∈ seq (S a) (length h - S a)) as Hb'.
      { rewrite <- Hseq. apply elem_of_flat_map. eauto. }
      apply elem_of_seq in Hb'. lia. }
    destruct (IH h2 (done ++ [t])) as (new & H1 & H2 & H3 & H4 & H5).
    + unfold h2, append_child. rewrite list_lookup_alter_eq.
      rewrite (prefix_lookup_Some _ _ _ _ Ha Hpre). simpl.
      unfold set_children. simpl. rewrite fmap_app. simpl. by rewrite Hroot.
    + apply Forall_app. split.
      * rewrite Forall_forall in Hdone |- *. intros k Hk.
        apply is_tree_alter; [|eapply is_tree_prefix; eauto].
        intros Hin. specialize (Hdone_lo k a Hk Hin). lia.
      * constructor; [|constructor]. apply is_tree_alter; [|done].
        rewrite Hnew. intros Hin%elem_of_seq. lia.
    + rewrite flat_map_app. simpl. rewrite app_nil_r, Hseq, Hnew, Hlen2.
      apply seq_join; lia.
    + exists (t :: new). simpl. rewrite <- app_assoc in H1, H2, H3.
      split_and!; try done.
      * rewrite H4. unfold h2, append_child. rewrite take_alter_ge by lia.
        destruct Hpre as [k ->]. apply take_app_le. lia.
      * lia.
Qed.

Lemma build_tree_layout element : build_layout element.
Proof.
  induction element as [text|name class_ contents IH]
    using PageElement_nested_ind; intros par h0.
  - reflexivity.
  - destruct name as [name|]; [|reflexivity].
    simpl built_shape. rewrite build_tree_tag.
    set (a := length h0). set (cls := default [] class_).
    set (h1 := h0 ++ [Node name cls [] par]).
    assert (length h1 = S a) as Hlen1.
    { unfold h1, a. rewrite length_app. simpl. lia. }
    destruct (build_children_layout a name cls par contents IH h1 [])
      as (new & Hnode & Hkids & Hseq & Htake & Hlen).
    { unfold h1, a. by rewrite lookup_app_r, Nat.sub_diag by lia. }
    { constructor. }
    { rewrite Hlen1, Nat.sub_diag. done. }
    simpl in *.
    exists (NT a name cls new), (build_children a contents h1).
    split; [done|]. split; [|split; [|split]].
    + exists (drop a (build_children a contents h1)).
      rewrite <- (take_drop a (build_children a contents h1)) at 1.
      f_equal. rewrite Htake. unfold h1, a. apply take_app_length.
    + by constructor.
    + done.
    + simpl. rewrite Hseq.
      replace (length (build_children a contents h1) - a)
        with (S (length (build_children a contents h1) - S a)) by lia.
      done.
Qed.

Lemma build_tree_alloc soup par h0 root h :
  _build_tree soup par h0 = (Some root, h) →
  ∃ t, is_tree h par t ∧ root_addr t = root ∧
       preorder t = seq (length h0) (length h - length h0).
Proof.
  intros Hrun. pose proof (build_tree_layout soup par h0) as Hspec.
  destruct (built_shape soup) as [s|]; [|rewrite Hrun in Hspec; discriminate].
  destruct Hspec as (t & h' & Heq & Hpre & Ht & Hroot & Hseq).
  rewrite Hrun in Heq. injection Heq as -> ->. by exists t.
Qed.

(** X3.  The builder creates the Nodes of a tree one after the other in
    pre-order: listed in pre-order, the nodes of the returned tree are
    exactly the dicts the call has created, each of them once.  No node
    is shared between two places of the tree and none is left outside. *)
Theorem build_tree_preorder_alloc soup par h0 root h :
  _build_tree soup par h0 = (Some root, h) →
  ∃ t, is_tree h par t ∧ root_addr t = root ∧
       preorder t = seq (length h0) (length h - length h0) ∧
       NoDup (preorder t) ∧
       length h0 < length h.
Proof.
  intros (t & Ht & Hroot & Hseq)%build_tree_alloc.
  exists t. split_and!; try done.
  - rewrite Hseq. apply NoDup_seq.
  - destruct t as [a tg cls kids]. apply is_tree_inv in Ht as [Ha _].
    apply lookup_lt_Some in Ha.
    assert (a ∈ seq (length h0) (length h - length h0)) as Hin.
    { rewrite <- Hseq. simpl. left. }
    apply elem_of_seq in Hin. lia.
Qed.

Lemma build_tree_preorder_alloc_witness :
  ∃ t, is_tree sample_heap None t ∧ root_addr t = 0 ∧
       preorder t = seq 0 (length sample_heap - 0) ∧
       NoDup (preorder t) ∧ 0 < length sample_heap.
Proof.
  exact (build_tree_preorder_alloc sample_soup None [] 0 sample_heap eq_refl).
Defined.

(** ** Every move of the cursor *)

Lemma filter_elem_of {A} (f : A → bool) (l : list A) (x : A) :
  x ∈ List.filter f l → x ∈ l ∧ f x = true.
Proof. rewrite !list_elem_of_In. apply List.filter_In. Qed.

(** The three ways a command can end: a miss with its notice, a step to
    the parent, a step to one of the children. *)
Lemma change_directory_cases py_int h self arg self' out :
  change_directory py_int h self arg = (self', out) →
  (self' = self ∧ is_Some out) ∨
  (arg = ".." ∧ out = None ∧
   get_parent h (current_node self) = Some (current_node self')) ∨
  (arg ≠ ".." ∧ out = None ∧
   current_node self' ∈ get_children h (current_node self)).
Proof.
  unfold change_directory. destruct (String.eqb_spec arg "..") as [->|Hne].
  - destruct (get_parent h (current_node self)) as [p|];
      intros [= <- <-]; eauto 6.
  - destruct (py_int arg) as [idx|].
    + case_bool_decide as Hrange.
      * destruct (get_children h (current_node self) !! Z.to_nat idx)
          as [child|] eqn:Hchild.
        -- intros [= <- <-]. right. right. split_and!; try done.
           simpl. eapply list_elem_of_lookup_2; eauto.
        -- apply lookup_ge_None in Hchild. lia.
      * intros [= <- <-]. eauto.
    + destruct (List.filter _ _) as [|child rest] eqn:Hfilter.
      * intros [= <- <-]. eauto.
      * intros [= <- <-]. right. right. split_and!; try done. simpl.
        assert (child ∈ List.filter (class_match h arg)
                          (get_children h (current_node self))) as Hin.
        { rewrite Hfilter. left. }
        by apply filter_elem_of in Hin as [? _].
Qed.

Section cursor_facts.
Variable py_int : string → option Z.

(** X4.  An argument that [int] reads as a number within the child list
    moves the cursor to the child at that position, counted from 0, and
    prints nothing. *)
Theorem change_directory_index h self arg idx child :
  arg ≠ ".." → py_int arg = Some idx → (0 ≤ idx)%Z →
  get_children h (current_node self) !! Z.to_nat idx = Some child →
  change_directory py_int h self arg = (Explorer child, None).
Proof.
  intros Hne Hint Hpos Hchild. unfold change_directory.
  rewrite (eqb_dotdot _ Hne), Hint, Hchild.
  rewrite bool_decide_eq_true_2; [done|].
  apply lookup_lt_Some in Hchild. lia.
Qed.

(** X5.  In a built tree, going down and then up comes back: after any
    command other than [..] that moved the cursor without a notice, the
    command [..] puts the cursor back on the very node it came from. *)
Theorem change_directory_down_up soup h0 root h self arg self' :
  _build_tree soup None h0 = (Some root, h) →
  reachable h root (current_node self) →
  arg ≠ ".." →
  change_directory py_int h self arg = (self', None) →
  change_directory py_int h self' ".." = (self, None).
Proof.
  intros (t & Ht & <- & _)%build_tree_some Hcur Hne Hrun.
  apply change_directory_cases in Hrun
    as [[_ [? [=]]]|[[-> _]|(_ & _ & Hchild)]]; [done|].
  apply (reachable_preorder _ _ _ _ Ht) in Hcur.
  pose proof (is_tree_child_parent _ _ _ Ht _ _ Hcur Hchild) as Hparent.
  unfold change_directory. simpl. rewrite Hparent. by destruct self.
Qed.

(** X6.  The cursor never leaves the tree: from a node of a built tree,
    every command, whatever its argument and whether it succeeds or not,
    leaves the cursor on a node of that tree. *)
Theorem change_directory_stays_in_tree soup h0 root h self arg :
  _build_tree soup None h0 = (Some root, h) →
  reachable h root (current_node self) →
  reachable h root (current_node (change_directory py_int h self arg).1).
Proof.
  intros (t & Ht & <- & _)%build_tree_some Hcur.
  destruct (change_directory py_int h self arg) as [self' out] eqn:Hrun.
  apply change_directory_cases in Hrun
    as [[-> _]|[(_ & _ & Hparent)|(_ & _ & Hchild)]]; simpl.
  - done.
  - apply (reachable_preorder _ _ _ _ Ht) in Hcur.
    destruct (is_tree_parent_in _ _ _ Ht _ _ Hcur Hparent) as [Hin|[_ [=]]].
    by eapply preorder_reachable.
  - unfold get_children in Hchild.
    destruct (h !! current_node self) as [n|] eqn:Hn; [|by inversion Hchild].
    eapply reachable_child; eauto.
Qed.
End cursor_facts.

Lemma change_directory_index_witness :
  change_directory decimal_int sample_heap (Explorer 1) "1"
  = (Explorer 3, None).
Proof.
  apply (change_directory_index decimal_int sample_heap (Explorer 1) "1" 1 3);
    [discriminate|reflexivity|lia|reflexivity].
Defined.

Lemma change_directory_down_up_witness :
  change_directory decimal_int sample_heap (Explorer 3) ".."
  = (Explorer 1, None).
Proof.
  apply (change_directory_down_up decimal_int sample_soup [] 0 sample_heap
           (Explorer 1) "b" (Explorer 3));
    [reflexivity| |discriminate|reflexivity].
  eapply reachable_child; [constructor|reflexivity|]. simpl. left.
Defined.

Lemma change_directory_stays_in_tree_witness :
  reachable sample_heap 0
    (current_node (change_directory decimal_int sample_heap (Explorer 0) "0").1).
Proof.
  apply (change_directory_stays_in_tree decimal_int sample_soup [] 0
           sample_heap (Explorer 0) "0"); [reflexivity|constructor].
Defined.

(** ** Breadcrumbs *)

Lemma join_snoc sep l x :
  l ≠ [] → join sep (l ++ [x]) = join sep l +:+ sep +:+ x.
Proof.
  induction l as [|y l IH]; [done|]. intros _. destruct l as [|z l].
  - reflexivity.
  - change (join sep ((y :: z :: l) ++ [x]))
      with (y +:+ sep +:+ join sep ((z :: l) ++ [x])).
    rewrite IH by done.
    change (join sep (y :: z :: l)) with (y +:+ sep +:+ join sep (z :: l)).
    by rewrite !str_app_assoc.
Qed.

Lemma breadcrumb_path_acc fuel h node path :
  breadcrumb_path fuel h node path
  = (fun rest => path ++ rest) <$> breadcrumb_path fuel h node [].
Proof.
  revert node path. induction fuel as [|fuel IH]; intros [a|] path;
    cbn [breadcrumb_path]; try (simpl; by rewrite ?app_nil_r).
  destruct (h !! a) as [n|]; [|done]. cbn [mbind option_bind].
  rewrite IH, (IH _ ([] ++ _)).
  destruct (breadcrumb_path fuel h (parent n) []) as [rest|]; [|done].
  simpl. by rewrite <- app_assoc.
Qed.

Lemma breadcrumb_path_nonempty fuel h a rest :
  breadcrumb_path fuel h (Some a) [] = Some rest → rest ≠ [].
Proof.
  destruct fuel as [|fuel]; [done|]. cbn [breadcrumb_path].
  destruct (h !! a) as [n|]; [|done]. cbn [mbind option_bind].
  rewrite breadcrumb_path_acc.
  destruct (breadcrumb_path fuel h (parent n) []) as [more|]; [|done].
  intros [= <-]. done.
Qed.

(** X7.  The breadcrumbs of a node that has a parent are the breadcrumbs
    of the parent, the separator, and the node's own identifier. *)
Theorem get_breadcrumbs_step fuel h a n p above :
  h !! a = Some n → parent n = Some p →
  get_breadcrumbs fuel h (Some p) = Some above →
  get_breadcrumbs (S fuel) h (Some a)
  = Some (above +:+ " > " +:+ format_node_identifier n).
Proof.
  intros Ha Hp Habove. unfold get_breadcrumbs in *.
  destruct (breadcrumb_path fuel h (Some p) []) as [rest|] eqn:Hrest;
    [|done].
  injection Habove as <-. cbn [breadcrumb_path].
  rewrite Ha. cbn [mbind option_bind]. rewrite Hp, breadcrumb_path_acc, Hrest.
  simpl. f_equal. apply breadcrumb_path_nonempty in Hrest.
  rewrite join_snoc; [done|].
  destruct rest as [|x rest]; [done|]. simpl. by destruct (rev rest).
Qed.

Lemma get_breadcrumbs_step_witness :
  get_breadcrumbs 3 sample_heap (Some 3)
  = Some ("[document] > div (a)" +:+ " > " +:+ "span (b)").
Proof.
  exact (get_breadcrumbs_step 2 sample_heap 3
           (Node "span" ["b"] [] (Some 1)) 1 "[document] > div (a)"
           eq_refl eq_refl eq_refl).
Defined.

Lemma breadcrumb_path_tree h t :
  ∀ par above k,
    is_tree h par t →
    (∀ fuel path, k ≤ fuel →
       breadcrumb_path fuel h par path = Some (path ++ rev above)) →
    ∀ a ids, (a, ids) ∈ trails above t →
    ∀ fuel path, k + height t ≤ fuel →
      breadcrumb_path fuel h (Some a) path = Some (path ++ rev ids).
Proof.
  induction t as [a0 tg cls kids IH] using ntree_nested_ind.
  intros par above k [Ha0 Hkids]%is_tree_inv Habove a ids Hin.
  assert (∀ fuel path, S k ≤ fuel →
            breadcrumb_path fuel h (Some a0) path
            = Some (path ++ rev (above ++ [identifier_of tg cls]))) as Hroot.
  { intros [|fuel] path Hfuel; [lia|]. cbn [breadcrumb_path].
    rewrite Ha0. cbn [mbind option_bind parent].
    rewrite Habove by lia. rewrite rev_app_distr. simpl.
    by rewrite <- app_assoc. }
  cbn [trails] in Hin. apply elem_of_cons in Hin as [[= -> ->]|Hin].
  - intros fuel path Hfuel. apply Hroot. simpl in Hfuel. lia.
  - apply elem_of_flat_map in Hin as (kid & Hkid & Hin).
    rewrite Forall_forall in IH, Hkids. intros fuel path Hfuel.
    eapply (IH kid Hkid (Some a0) _ (S k)); eauto.
    assert (height kid ≤ max_list (height <$> kids)).
    { apply max_list_elem_of_le, list_elem_of_fmap. eauto. }
    simpl in Hfuel. lia.
Qed.

Lemma trails_preorder above t : (trails above t).*1 = preorder t.
Proof.
  revert above. induction t as [a tg cls kids IH] using ntree_nested_ind.
  intros above. cbn [trails preorder fmap list_fmap fst]. f_equal.
  generalize (above ++ [identifier_of tg cls]). intros here.
  induction IH as [|k kids Hk _ IHkids]; [done|].
  cbn [flat_map]. by rewrite fmap_app, Hk, IHkids.
Qed.

(** X8.  In a tree whose root has no parent the breadcrumbs of a node
    are the identifiers of the nodes on the way from the root down to it,
    joined by the separator; every node of the tree has its way, and for
    the root it is its own identifier alone. *)
Theorem get_breadcrumbs_trail h t fuel :
  is_tree h None t → height t ≤ fuel →
  (trails [] t).*1 = preorder t ∧
  (∀ a ids, (a, ids) ∈ trails [] t →
     get_breadcrumbs fuel h (Some a) = Some (join " > " ids)) ∧
  (∃ n, h !! root_addr t = Some n ∧
        get_breadcrumbs fuel h (Some (root_addr t))
        = Some (format_node_identifier n)).
Proof.
  intros Ht Hfuel.
  assert (∀ a ids, (a, ids) ∈ trails [] t →
            get_breadcrumbs fuel h (Some a) = Some (join " > " ids)) as Hall.
  { intros a ids Hin. unfold get_breadcrumbs.
    rewrite (breadcrumb_path_tree h t None [] 0 Ht) with (ids := ids).
    - simpl. by rewrite rev_involutive.
    - intros [|fuel'] path _; simpl; by rewrite app_nil_r.
    - done.
    - done. }
  split_and!; [apply trails_preorder|done|].
  destruct t as [a tg cls kids].
  pose proof Ht as [Ha _]%is_tree_inv. eexists. split; [exact Ha|].
  cbn [root_addr]. rewrite (Hall a [identifier_of tg cls]); [done|].
  simpl. left.
Qed.

Lemma get_breadcrumbs_trail_witness :
  get_breadcrumbs 3 sample_heap (Some 2) = Some "[document] > div (a) > p".
Proof.
  destruct (get_breadcrumbs_trail sample_heap sample_tree 3)
    as (_ & Hall & _); [exact sample_is_tree|simpl; lia|].
  apply (Hall 2 ["[document]"; "div (a)"; "p"]).
  simpl. right. right. left.
Defined.

(** ** Identifier and label *)

Lemma join_two_nonempty sep x y l : sep ≠ "" → join sep (x :: y :: l) ≠ "".
Proof.
  intros Hsep. change (join sep (x :: y :: l))
    with (x +:+ sep +:+ join sep (y :: l)).
  destruct x; [|done]. rewrite str_app_nil_l. by destruct sep.
Qed.

(** X9.  The identifier shown in listings and breadcrumbs and the label
    drawn in the tree picture are the same text for every node but one
    kind: a node whose class list holds just the empty string has the
    bare tag as identifier and the tag followed by empty parentheses as
    label. *)
Theorem identifier_label_agree n :
  (classes n ≠ [""] →
   format_node_identifier n = node_label (tag n) (classes n)) ∧
  (classes n = [""] →
   format_node_identifier n = tag n ∧
   node_label (tag n) (classes n) = tag n +:+ " ()" ∧
   format_node_identifier n ≠ node_label (tag n) (classes n)).
Proof.
  unfold format_node_identifier, node_label, classes_str.
  destruct n as [tg cls kids par]. simpl. split.
  - intros Hne. destruct cls as [|c [|c' cls]].
    + simpl. by rewrite str_app_nil_r.
    + destruct c; [done|]. done.
    + pose proof (join_two_nonempty " " c c' cls) as Hjoin.
      destruct (join " " (c :: c' :: cls)); [by destruct Hjoin|done].
  - intros ->. simpl. split_and!; try done.
    intros Heq. rewrite <- (str_app_nil_r tg) in Heq at 1.
    by apply (inj (String.app tg)) in Heq.
Qed.

Lemma identifier_label_agree_witness :
  format_node_identifier (Node "div" ["a"; "b"] [] None)
  = node_label "div" ["a"; "b"].
Proof.
  apply (proj1 (identifier_label_agree (Node "div" ["a"; "b"] [] None))).
  discriminate.
Defined.

(** ** Traversals of a built tree *)

Lemma height_le_size t : height t ≤ length (preorder t).
Proof.
  induction t as [a tg cls kids IH] using ntree_nested_ind.
  cbn [height preorder length]. apply le_n_S.
  induction IH as [|k kids Hk _ IHkids]; [done|].
  rewrite fmap_cons. cbn [max_list flat_map]. rewrite length_app.
  unfold id in *. apply Nat.max_lub; lia.
Qed.

Lemma is_tree_subtree_within h t :
  ∀ par, is_tree h par t →
  ∀ a, a ∈ preorder t →
  ∃ par' t', is_tree h par' t' ∧ root_addr t' = a ∧
             preorder t' `sublist_of` preorder t.
Proof.
  induction t as [a0 tg cls kids IH] using ntree_nested_ind.
  intros par Ht a Hin. simpl in Hin.
  apply elem_of_cons in Hin as [->|Hin]; [by exists par, (NT a0 tg cls kids)|].
  apply is_tree_inv in Ht as [_ Hkids].
  apply elem_of_flat_map in Hin as (k & Hk & Hin).
  rewrite Forall_forall in IH, Hkids.
  destruct (IH k Hk _ (Hkids k Hk) a Hin) as (par' & t' & Ht' & Hroot & Hsub).
  exists par', t'. split_and!; try done.
  simpl. apply sublist_cons. etrans; [exact Hsub|].
  apply list_elem_of_split in Hk as (l1 & l2 & ->).
  rewrite flat_map_app. simpl.
  apply sublist_inserts_l, sublist_inserts_r. done.
Qed.

Lemma built_subtree soup h0 root h cur :
  _build_tree soup None h0 = (Some root, h) → reachable h root cur →
  ∃ t par' t',
    is_tree h None t ∧ root_addr t = root ∧
    is_tree h par' t' ∧ root_addr t' = cur ∧
    NoDup (preorder t') ∧
    height t ≤ length h - length h0 ∧ height t' ≤ length h - length h0.
Proof.
  intros (t & Ht & <- & Hseq)%build_tree_alloc Hcur.
  assert (NoDup (preorder t)) as Hnodup by (rewrite Hseq; apply NoDup_seq).
  apply (reachable_preorder _ _ _ _ Ht) in Hcur.
  destruct (is_tree_subtree_within _ _ _ Ht _ Hcur)
    as (par' & t' & Ht' & Hroot & Hsub).
  assert (length (preorder t) = length h - length h0) as Hsize.
  { by rewrite Hseq, length_seq. }
  exists t, par', t'. split_and!; try done.
  - by eapply sublist_NoDup.
  - rewrite <- Hsize. apply height_le_size.
  - rewrite <- Hsize. etrans; [apply height_le_size|].
    by apply sublist_length.
Qed.

Section built_tree_facts.
Variable lower : string → string.
Variable encode_basestring : string → string.

(** X10.  On a built tree a search from any node of the tree returns
    within a recursion depth of the number of nodes: it lists exactly the
    nodes at or below the cursor whose identifier matches, and lists none
    of them twice. *)
Theorem search_built_tree soup h0 root h cur fuel query :
  _build_tree soup None h0 = (Some root, h) →
  reachable h root cur →
  length h - length h0 ≤ fuel →
  ∃ results,
    search lower fuel h (Explorer cur) query = Some results ∧
    NoDup results ∧
    ∀ a, a ∈ results ↔
         reachable h cur a ∧
         identifier_matches lower h (lower query) a = true.
Proof.
  intros Hrun Hcur Hfuel.
  destruct (built_subtree _ _ _ _ _ Hrun Hcur)
    as (t & par' & t' & _ & _ & Ht' & <- & Hnodup & _ & Hheight).
  eexists. split_and!.
  - unfold search. simpl. rewrite (search_tree_spec _ _ _ _ _ Ht') by lia.
    simpl. reflexivity.
  - by apply NoDup_ListNoDup, List.NoDup_filter, NoDup_ListNoDup.
  - intros a. rewrite list_elem_of_In, List.filter_In, <- list_elem_of_In.
    split; intros [Ha Hmatch]; (split; [|done]).
    + by eapply preorder_reachable.
    + by eapply reachable_preorder.
Qed.

(** X11.  On a built tree none of the traversals fails: from any node of
    the tree and within a depth of the number of nodes, the picture of
    the subtree, the breadcrumbs of the node and the export of the whole
    tree all come out. *)
Theorem built_tree_traversals soup h0 root h cur fuel :
  _build_tree soup None h0 = (Some root, h) →
  reachable h root cur →
  length h - length h0 ≤ fuel →
  (∃ picture, tree_to_string fuel h cur "" true = Some picture) ∧
  (∃ crumbs, get_breadcrumbs fuel h (Some cur) = Some crumbs) ∧
  (∃ text, export_json encode_basestring fuel h root = Some text).
Proof.
  intros Hrun Hcur Hfuel.
  destruct (built_subtree _ _ _ _ _ Hrun Hcur)
    as (t & par' & t' & Ht & <- & Ht' & <- & _ & Hheight & Hheight').
  split_and!.
  - eexists. apply (tree_to_string_spec _ _ _ Ht'). lia.
  - apply (reachable_preorder _ _ _ _ Ht) in Hcur.
    rewrite <- (trails_preorder []) in Hcur.
    apply list_elem_of_fmap in Hcur as ([a ids] & Heq & Hin).
    simpl in Heq. subst a. exists (join " > " ids).
    assert (∀ fuel' path, 0 ≤ fuel' →
              breadcrumb_path fuel' h None path = Some (path ++ rev []))
      as Hnone.
    { intros [|fuel'] path _; simpl; by rewrite app_nil_r. }
    unfold get_breadcrumbs.
    rewrite (breadcrumb_path_tree h t None [] 0 Ht Hnone _ ids Hin) by lia.
    simpl. by rewrite rev_involutive.
  - eexists. unfold export_json.
    rewrite (remove_parent_spec _ _ _ Ht) by lia. reflexivity.
Qed.
End built_tree_facts.

Lemma search_built_tree_witness :
  ∃ results,
    search ascii_lower 4 sample_heap (Explorer 1) "P" = Some results ∧
    NoDup results ∧
    ∀ a, a ∈ results ↔
         reachable sample_heap 1 a ∧
         identifier_matches ascii_lower sample_heap (ascii_lower "P") a = true.
Proof.
  apply (search_built_tree ascii_lower sample_soup [] 0 sample_heap 1 4 "P");
    [reflexivity| |simpl; lia].
  eapply reachable_child; [constructor|reflexivity|]. simpl. left.
Defined.

Lemma built_tree_traversals_witness :
  (∃ picture, tree_to_string 4 sample_heap 1 "" true = Some picture) ∧
  (∃ crumbs, get_breadcrumbs 4 sample_heap (Some 1) = Some crumbs) ∧
  (∃ text, export_json quoted 4 sample_heap 0 = Some text).
Proof.
  apply (built_tree_traversals quoted sample_soup [] 0 sample_heap 1 4);
    [reflexivity| |simpl; lia].
  eapply reachable_child; [constructor|reflexivity|]. simpl. left.
Defined.

(** ** Text blocks of any document *)

Lemma extract_fold_lookup name blocks :
  ∀ m : gmap string (list string),
    fold_left
      (fun blocks block =>
         match element_name block with
         | Some name =>
             if bool_decide (name ∈ block_names) then
               match get_text_strip block with
               | "" => blocks
               | block_text =>
                   <[name := default [] (blocks !! name) ++ [block_text]]>
                     blocks
               end
             else blocks
         | None => blocks
         end)
      blocks m !! name
    = if bool_decide (name ∈ block_names) then
        match omap (block_text name) blocks with
        | [] => m !! name
        | l => Some (default [] (m !! name) ++ l)
        end
      else m !! name.
Proof.
  induction blocks as [|b blocks IH]; intros m.
  - simpl. by case_bool_decide.
  - cbn [fold_left omap list_omap]. rewrite IH. unfold block_text at 2.
    destruct (element_name b) as [nm|] eqn:Hnm.
    + destruct (decide (nm = name)) as [->|Hne].
      * rewrite (bool_decide_eq_true_2 (Some name = Some name)) by done.
        case_bool_decide as Hin; [|done].
        destruct (get_text_strip b) as [|c s] eqn:Htext; [done|].
        rewrite lookup_insert_eq. simpl.
        destruct (omap (block_text name) blocks) as [|x l]; [done|].
        by rewrite <- app_assoc.
      * rewrite (bool_decide_eq_false_2 (Some nm = Some name)) by congruence.
        destruct (bool_decide (nm ∈ block_names)); [|done].
        destruct (get_text_strip b) as [|c s]; [done|].
        by rewrite lookup_insert_ne.
    + by rewrite (bool_decide_eq_false_2 (None = Some name)).
Qed.

Lemma block_text_nonempty name block s :
  block_text name block = Some s → s ≠ "".
Proof.
  unfold block_text. case_bool_decide; [|done].
  destruct (get_text_strip block); [done|]. by intros [= <-].
Qed.

(** X12.  For any document, what [extract_text_by_blocks] holds under a
    name is the list of the texts of all tags of that name, in document
    order, without the empty ones; a name has an entry only if it is div,
    p or span and that list is not empty, so no entry is an empty list
    and no text in an entry is the empty string. *)
Theorem extract_text_by_blocks_lookup soup name :
  extract_text_by_blocks soup !! name
  = (if bool_decide (name ∈ block_names) then
       match block_texts soup name with
       | [] => None
       | texts => Some texts
       end
     else None) ∧
  (∀ texts, extract_text_by_blocks soup !! name = Some texts →
            name ∈ block_names ∧ texts ≠ [] ∧
            Forall (fun s => s ≠ "") texts).
Proof.
  assert (extract_text_by_blocks soup !! name
          = if bool_decide (name ∈ block_names) then
              match block_texts soup name with
              | [] => None
              | texts => Some texts
              end
            else None) as Hlookup.
  { unfold extract_text_by_blocks, block_texts.
    rewrite extract_fold_lookup, lookup_empty.
    case_bool_decide; [|done].
    by destruct (omap (block_text name) (find_all_True soup)). }
  split; [done|]. intros texts. rewrite Hlookup.
  case_bool_decide as Hin; [|done].
  destruct (block_texts soup name) as [|x l] eqn:Htexts; [done|].
  intros [= <-]. split_and!; try done.
  rewrite <- Htexts. unfold block_texts. apply Forall_forall.
  intros s (block & _ & Hs)%list_elem_of_omap.
  by eapply block_text_nonempty.
Qed.

(** ** Text of nested blocks *)

Lemma join_empty_app l1 l2 : join "" (l1 ++ l2) = join "" l1 +:+ join "" l2.
Proof.
  induction l1 as [|x l1 IH]; [done|].
  destruct l1 as [|y l1].
  - simpl. destruct l2; [by rewrite str_app_nil_r|done].
  - change (join "" ((x :: y :: l1) ++ l2))
      with (x +:+ "" +:+ join "" ((y :: l1) ++ l2)).
    rewrite IH. change (join "" (x :: y :: l1))
      with (x +:+ "" +:+ join "" (y :: l1)).
    by rewrite !str_app_nil_l, str_app_assoc.
Qed.

Lemma get_text_strip_pieces element :
  get_text_strip element = join "" (text_pieces element).
Proof. reflexivity. Qed.

Lemma text_pieces_tag name class_ contents :
  text_pieces (Tag name class_ contents)
  = flat_map (fun c => text_piece c ++ text_pieces c) contents.
Proof.
  unfold text_pieces. cbn [descendants].
  induction contents as [|c cs IH]; [done|].
  cbn [flat_map]. by rewrite flat_map_app, IH.
Qed.

Lemma text_pieces_nested outer :
  ∀ inner, inner ∈ descendants outer →
  ∃ pre post, text_pieces outer = pre ++ text_pieces inner ++ post.
Proof.
  induction outer as [text|name class_ contents IH]
    using PageElement_nested_ind; intros inner Hin.
  - by inversion Hin.
  - cbn [descendants] in Hin.
    apply elem_of_flat_map in Hin as (c & Hc & Hin).
    apply list_elem_of_split in Hc as (l1 & l2 & ->).
    rewrite text_pieces_tag, flat_map_app. cbn [flat_map].
    set (before := flat_map (fun c => text_piece c ++ text_pieces c) l1).
    set (after := flat_map (fun c => text_piece c ++ text_pieces c) l2).
    apply elem_of_cons in Hin as [->|Hin].
    + exists (before ++ text_piece c), after.
      by rewrite <- !app_assoc.
    + rewrite Forall_app, Forall_cons in IH. destruct IH as (_ & IHc & _).
      destruct (IHc inner Hin) as (pre & post & ->).
      exists (before ++ text_piece c ++ pre), (post ++ after).
      by rewrite <- !app_assoc.
Qed.

Lemma descendants_trans a b c :
  a ∈ descendants b → b ∈ descendants c → a ∈ descendants c.
Proof.
  revert a b. induction c as [text|name class_ contents IH]
    using PageElement_nested_ind; intros a b Hab Hbc.
  - by inversion Hbc.
  - cbn [descendants] in *.
    apply elem_of_flat_map in Hbc as (k & Hk & Hbc).
    apply elem_of_flat_map. exists k. split; [done|].
    right. apply elem_of_cons in Hbc as [->|Hbc]; [done|].
    rewrite Forall_forall in IH. eapply IH; eauto.
Qed.

(** X13.  Text is collected again at every level of nesting: when a
    block that has text lies inside another block, the inner block's
    entry holds its text and the outer block's entry holds a text that
    contains it. *)
Theorem extract_text_by_blocks_nested soup outer inner outer_name inner_name :
  outer ∈ find_all_True soup → inner ∈ descendants outer →
  element_name outer = Some outer_name → outer_name ∈ block_names →
  element_name inner = Some inner_name → inner_name ∈ block_names →
  get_text_strip inner ≠ "" →
  ∃ outer_texts inner_texts,
    extract_text_by_blocks soup !! outer_name = Some outer_texts ∧
    extract_text_by_blocks soup !! inner_name = Some inner_texts ∧
    get_text_strip outer ∈ outer_texts ∧
    get_text_strip inner ∈ inner_texts ∧
    contains (get_text_strip inner) (get_text_strip outer) = true.
Proof.
  intros Houter Hinner Hon Hobn Hin Hibn Htext.
  assert (contains (get_text_strip inner) (get_text_strip outer) = true)
    as Hcontains.
  { destruct (text_pieces_nested outer inner Hinner) as (pre & post & Hsplit).
    apply contains_iff_app. exists (join "" pre), (join "" post).
    by rewrite !get_text_strip_pieces, Hsplit, !join_empty_app. }
  assert (get_text_strip outer ≠ "") as Htext'.
  { intros Hempty. rewrite Hempty in Hcontains.
    destruct (get_text_strip inner); [done|discriminate]. }
  assert (inner ∈ find_all_True soup) as Hinner'.
  { unfold find_all_True in *. apply list_elem_of_In, List.filter_In.
    apply list_elem_of_In, List.filter_In in Houter as [Houter _].
    split.
    - apply list_elem_of_In. eapply descendants_trans; [done|].
      by apply list_elem_of_In.
    - by destruct inner. }
  assert (∀ block name,
            block ∈ find_all_True soup → element_name block = Some name →
            name ∈ block_names → get_text_strip block ≠ "" →
            ∃ texts, extract_text_by_blocks soup !! name = Some texts ∧
                     get_text_strip block ∈ texts) as Hentry.
  { intros block name Hblock Hname Hbn Hne.
    assert (get_text_strip block ∈ block_texts soup name) as Hmem.
    { unfold block_texts. apply list_elem_of_omap. exists block.
      split; [done|]. unfold block_text.
      rewrite bool_decide_eq_true_2 by done.
      by destruct (get_text_strip block). }
    unfold extract_text_by_blocks, block_texts in *.
    rewrite extract_fold_lookup, lookup_empty.
    rewrite bool_decide_eq_true_2 by done.
    destruct (omap (block_text name) (find_all_True soup)) as [|x l];
      [by inversion Hmem|eauto]. }
  destruct (Hentry outer outer_name) as (outer_texts & ? & ?); try done.
  destruct (Hentry inner inner_name) as (inner_texts & ? & ?); try done.
  exists outer_texts, inner_texts. by split_and!.
Qed.

Lemma extract_text_by_blocks_lookup_witness :
  "div" ∈ block_names ∧ ["XY"] ≠ [] ∧ Forall (fun s => s ≠ "") ["XY"].
Proof.
  apply (proj2 (extract_text_by_blocks_lookup sample_soup "div") ["XY"]).
  by vm_compute.
Defined.

Lemma extract_text_by_blocks_nested_witness :
  ∃ outer_texts inner_texts,
    extract_text_by_blocks sample_soup !! "div" = Some outer_texts ∧
    extract_text_by_blocks sample_soup !! "p" = Some inner_texts ∧
    "XY" ∈ outer_texts ∧ "X" ∈ inner_texts ∧ contains "X" "XY" = true.
Proof.
  apply (extract_text_by_blocks_nested sample_soup
           (Tag (Some "div") (Some ["a"])
              [Tag (Some "p") None [NavigableString "X"];
               Tag (Some "span") (Some ["b"]) [NavigableString "Y"]])
           (Tag (Some "p") None [NavigableString "X"]) "div" "p").
  - simpl. left.
  - simpl. left.
  - reflexivity.
  - unfold block_names. left.
  - reflexivity.
  - unfold block_names. right. left.
  - discriminate.
Defined.

(** ** What the export keeps *)

Lemma fmap_JString_inj (l1 l2 : list string) :
  JString <$> l1 = JString <$> l2 → l1 = l2.
Proof.
  revert l2. induction l1 as [|x l1 IH]; intros [|y l2] Heq;
    try discriminate; [done|].
  injection Heq as -> Heq. f_equal. by apply IH.
Qed.

Lemma shape_json_inj s1 : ∀ s2, shape_json s1 = shape_json s2 → s1 = s2.
Proof.
  induction s1 as [tg1 cls1 kids1 IH] using shape_nested_ind.
  intros [tg2 cls2 kids2] Heq. cbn [shape_json] in Heq.
  injection Heq as -> Hcls%fmap_JString_inj Hkids. subst cls2. f_equal.
  revert kids2 Hkids. induction IH as [|k kids1 Hk _ IHkids];
    intros [|k2 kids2] Hkids; try discriminate; [done|].
  injection Hkids as Hhead Htail. f_equal; [by apply Hk|by apply IHkids].
Qed.

Lemma shape_json_exported s : exported_node (shape_json s) = true.
Proof.
  induction s as [tg cls kids IH] using shape_nested_ind.
  cbn [shape_json exported_node].
  rewrite !bool_decide_eq_true_2 by done. cbn [andb].
  assert (forallb is_jstring (JString <$> cls) = true) as ->.
  { induction cls as [|c cls IHcls]; [done|]. exact IHcls. }
  cbn [andb]. induction IH as [|k kids Hk _ IHkids]; [done|].
  cbn [fmap list_fmap forallb]. by rewrite Hk, IHkids.
Qed.

(** X14.  The export loses nothing of the structure: two subtrees are
    exported to the same structure exactly when they have the same tags,
    classes and children throughout. *)
Theorem remove_parent_determines_shape h1 par1 t1 fuel1 h2 par2 t2 fuel2 :
  is_tree h1 par1 t1 → height t1 ≤ fuel1 →
  is_tree h2 par2 t2 → height t2 ≤ fuel2 →
  (remove_parent fuel1 h1 (root_addr t1) = remove_parent fuel2 h2 (root_addr t2)
   ↔ erase t1 = erase t2).
Proof.
  intros Ht1 Hf1 Ht2 Hf2.
  rewrite (remove_parent_spec _ _ _ Ht1 _ Hf1).
  rewrite (remove_parent_spec _ _ _ Ht2 _ Hf2). split.
  - intros [= Heq]. by apply shape_json_inj.
  - by intros ->.
Qed.

Lemma remove_parent_determines_shape_witness :
  remove_parent 1 twin_heap 1 = remove_parent 1 twin_heap 2
  ↔ erase (NT 1 "li" ["x"] []) = erase (NT 2 "li" ["x"] []).
Proof.
  apply (remove_parent_determines_shape
           twin_heap (Some 0) (NT 1 "li" ["x"] []) 1
           twin_heap (Some 0) (NT 2 "li" ["x"] []) 1).
  - repeat (constructor; try reflexivity).
  - simpl. lia.
  - repeat (constructor; try reflexivity).
  - simpl. lia.
Defined.

(** X15.  Every object of an export has exactly the three fields tag,
    classes and children, in this order: a string, a list of strings, and
    a list of objects of the same form. *)
Theorem remove_parent_schema h par t fuel :
  is_tree h par t → height t ≤ fuel →
  ∃ exported,
    remove_parent fuel h (root_addr t) = Some exported ∧
    exported_node exported = true.
Proof.
  intros Ht Hfuel. exists (shape_json (erase t)). split.
  - by eapply remove_parent_spec.
  - apply shape_json_exported.
Qed.

Lemma remove_parent_schema_witness :
  ∃ exported,
    remove_parent 3 sample_heap 0 = Some exported ∧
    exported_node exported = true.
Proof.
  apply (remove_parent_schema sample_heap None sample_tree 3);
    [exact sample_is_tree|simpl; lia].
Defined.

(** ** From an exported tree to texts and labels *)

Lemma shape_height_erase t : shape_height (erase t) = height t.
Proof.
  induction t as [a tg cls kids IH] using ntree_nested_ind.
  cbn [erase shape_height height]. f_equal.
  induction IH as [|k kids Hk _ IHkids]; [done|].
  rewrite !fmap_cons. cbn [max_list]. by rewrite Hk, IHkids.
Qed.

Section flatten_facts.
Context {number : Type}.
Variable nonzero : number → bool.

Abbreviation flatten_step fuel default_label :=
  (fun acc child =>
     match acc with
     | Ok (texts, labels) =>
         match flatten_html_json nonzero fuel child default_label with
         | Ok (child_texts, child_labels) =>
             Ok (texts ++ child_texts, labels ++ child_labels)
         | Raise e => Raise e
         end
     | Raise e => Raise e
     end).

Lemma flatten_fold_raise fuel default_label children e :
  fold_left (flatten_step fuel default_label) children (Raise e) = Raise e.
Proof. induction children as [|c cs IH]; [done|]. exact IH. Qed.

Lemma flatten_fold_lengths fuel default_label children :
  (∀ child ts ls,
     flatten_html_json nonzero fuel child default_label = Ok (ts, ls) →
     length ts = length ls) →
  ∀ texts labels texts' labels',
    length texts = length labels →
    fold_left (flatten_step fuel default_label) children (Ok (texts, labels))
    = Ok (texts', labels') →
    length texts' = length labels'.
Proof.
  intros Hchild. induction children as [|c cs IH];
    intros texts labels texts' labels' Hlen Hrun.
  - by injection Hrun as <- <-.
  - cbn [fold_left] in Hrun.
    destruct (flatten_html_json nonzero fuel c default_label)
      as [[ts ls]|e] eqn:Hc.
    + eapply IH; [|exact Hrun]. rewrite !length_app.
      by rewrite Hlen, (Hchild _ _ _ Hc).
    + by rewrite flatten_fold_raise in Hrun.
Qed.

Lemma flatten_lengths fuel :
  ∀ node default_label texts labels,
    flatten_html_json nonzero fuel node default_label = Ok (texts, labels) →
    length texts = length labels.
Proof.
  induction fuel as [|fuel IH]; intros node default_label texts labels;
    [done|].
  cbn [flatten_html_json]. destruct node as [| | | | |items]; try done.
  destruct (py_iter _) as [children|e]; [|by destruct (truthy _ _)].
  destruct (truthy _ _); intros Hrun;
    (eapply flatten_fold_lengths; [intros child ts ls; apply IH| |exact Hrun]);
    done.
Qed.

Lemma flatten_fold_ok fuel default_label children :
  Forall (fun child =>
            ∃ ts ls, flatten_html_json nonzero fuel child default_label
                     = Ok (ts, ls)) children →
  ∀ texts labels,
    ∃ texts' labels',
      fold_left (flatten_step fuel default_label) children (Ok (texts, labels))
      = Ok (texts', labels').
Proof.
  induction 1 as [|c cs (ts & ls & Hc) _ IH]; intros texts labels.
  - by exists texts, labels.
  - cbn [fold_left]. rewrite Hc. apply IH.
Qed.

Lemma flatten_dict_tree depth :
  ∀ fuel node default_label,
    dict_tree depth node → depth ≤ fuel →
    ∃ texts labels,
      flatten_html_json nonzero fuel node default_label = Ok (texts, labels).
Proof.
  induction depth as [|depth IH]; intros fuel node default_label Htree Hfuel;
    [done|].
  destruct fuel as [|fuel]; [lia|]. cbn [dict_tree flatten_html_json] in *.
  destruct node as [| | | | |items]; try done.
  assert (∃ children,
            py_iter (default (PList []) (dict_get "children" items))
            = Ok children ∧ Forall (dict_tree depth) children)
    as (children & -> & Hchildren).
  { destruct (dict_get "children" items) as [[| | | |children|]|]; try done.
    - by exists children.
    - by exists []. }
  assert (Forall (fun child =>
            ∃ ts ls, flatten_html_json nonzero fuel child default_label
                     = Ok (ts, ls)) children) as Hok.
  { eapply Forall_impl; [exact Hchildren|]. intros child Hchild.
    apply IH; [done|lia]. }
  destruct (truthy _ _); apply (flatten_fold_ok _ _ _ Hok).
Qed.

(** X16.  [flatten_html_json] keeps texts and labels in step: whenever it
    returns, it returns as many labels as texts; and on a tree of dicts
    whose children fields are lists it does return, given a recursion
    depth of the depth of the tree. *)
Theorem flatten_html_json_paired fuel node default_label :
  (∀ texts labels,
     flatten_html_json nonzero fuel node default_label = Ok (texts, labels) →
     length texts = length labels) ∧
  (∀ depth,
     dict_tree depth node → depth ≤ fuel →
     ∃ texts labels,
       flatten_html_json nonzero fuel node default_label = Ok (texts, labels) ∧
       length texts = length labels).
Proof.
  split; [apply flatten_lengths|].
  intros depth Htree Hfuel.
  destruct (flatten_dict_tree depth fuel node default_label Htree Hfuel)
    as (texts & labels & Hrun).
  exists texts, labels. split; [done|]. by eapply flatten_lengths.
Qed.

Lemma dict_get_exported (a b c : @pyjson number) :
  let items := [("tag", a); ("classes", b); ("children", c)] in
  dict_get "text" items = None ∧ dict_get "data" items = None ∧
  dict_get "tag" items = Some a ∧ dict_get "children" items = Some c.
Proof. by split_and!. Qed.

Lemma flatten_shape_json s :
  ∀ fuel default_label,
    shape_height s ≤ fuel →
    flatten_html_json nonzero fuel (as_loaded (shape_json s)) default_label
    = Ok ([], []).
Proof.
  induction s as [tg cls kids IH] using shape_nested_ind.
  intros fuel default_label Hfuel.
  destruct fuel as [|fuel]; [simpl in Hfuel; lia|].
  cbn [shape_json as_loaded fmap list_fmap flatten_html_json].
  destruct (dict_get_exported (PStr tg)
              (PList (as_loaded <$> (JString <$> cls)))
              (PList (as_loaded <$> (shape_json <$> kids))))
    as (-> & _ & _ & ->).
  cbn [default from_option truthy py_iter id].
  cbn [shape_height] in Hfuel.
  assert (Forall (fun k => shape_height k ≤ fuel) kids) as Hkids.
  { apply Forall_forall. intros k Hk.
    assert (shape_height k ≤ max_list (shape_height <$> kids)); [|lia].
    apply max_list_elem_of_le, list_elem_of_fmap. eauto. }
  clear Hfuel. induction IH as [|k kids Hk _ IHkids]; [done|].
  apply Forall_cons in Hkids as [Hk' Hkids].
  rewrite !fmap_cons. cbn [fold_left]. rewrite Hk by done.
  by apply IHkids.
Qed.

(** X17.  An exported tree carries no text: flattening the structure the
    exporter writes gives no texts and no labels, so loading a dataset
    from an exported tree ends in the ValueError for a file without valid
    entries. *)
Theorem load_exported_tree h par t fuel :
  is_tree h par t → height t ≤ fuel →
  ∃ exported,
    remove_parent fuel h (root_addr t) = Some exported ∧
    (∀ default_label,
       flatten_html_json nonzero fuel (as_loaded exported) default_label
       = Ok ([], [])) ∧
    load_texts_labels nonzero fuel (as_loaded exported)
    = Raise (ValueError no_entries_message).
Proof.
  intros Ht Hfuel. exists (shape_json (erase t)).
  assert (∀ default_label,
            flatten_html_json nonzero fuel (as_loaded (shape_json (erase t)))
              default_label = Ok ([], [])) as Hflat.
  { intros default_label. apply flatten_shape_json.
    by rewrite shape_height_erase. }
  split_and!; [by eapply remove_parent_spec|done|].
  unfold load_texts_labels. destruct (erase t) as [tg cls kids] eqn:Hshape.
  specialize (Hflat (PStr "unknown")).
  cbn [shape_json as_loaded fmap list_fmap] in Hflat |- *.
  destruct (dict_get_exported (PStr tg)
              (PList (as_loaded <$> (JString <$> cls)))
              (PList (as_loaded <$> (shape_json <$> kids))))
    as (_ & -> & -> & ->).
  by rewrite Hflat.
Qed.
End flatten_facts.

Lemma flatten_html_json_paired_witness :
  ∃ texts labels,
    flatten_html_json nonzero_Z 2
      (PDict [("text", PStr "hi"); ("label", PStr "pos");
              ("children", PList [PDict [("text", PNumber 7%Z)]])])
      PNone
    = Ok (texts, labels) ∧
    length texts = length labels.
Proof.
  apply (proj2 (flatten_html_json_paired nonzero_Z 2
                  (PDict [("text", PStr "hi"); ("label", PStr "pos");
                          ("children", PList [PDict [("text", PNumber 7%Z)]])])
                  PNone) 2); [|lia].
  simpl. repeat constructor.
Defined.

Lemma load_exported_tree_witness :
  ∃ exported,
    remove_parent 3 sample_heap 0 = Some exported ∧
    (∀ default_label,
       flatten_html_json nonzero_Z 3 (as_loaded exported) default_label
       = Ok ([], [])) ∧
    load_texts_labels nonzero_Z 3 (as_loaded exported)
    = Raise (ValueError no_entries_message).
Proof.
  apply (load_exported_tree nonzero_Z sample_heap None sample_tree 3);
    [exact sample_is_tree|simpl; lia].
Defined.

(** ** Texts and labels of a dataset file *)

Section load_facts.
Context {number : Type}.
Variable nonzero : number → bool.

Abbreviation entry_step :=
  (fun acc (entry : @pyjson number) =>
     match acc with
     | Ok (texts, labels) =>
         match entry with
         | PDict items =>
             let text := default PNone (dict_get "text" items) in
             let label := default PNone (dict_get "label" items) in
             if is_none text || is_none label then Ok (texts, labels)
             else Ok (texts ++ [text], labels ++ [label])
         | _ => Raise AttributeError
         end
     | Raise e => Raise e
     end).

Lemma entries_fold_raise entries e :
  fold_left entry_step entries (Raise e) = Raise e.
Proof. induction entries as [|c cs IH]; [done|]. exact IH. Qed.

Lemma entries_fold_lengths entries :
  ∀ texts labels texts' labels',
    length texts = length labels →
    fold_left entry_step entries (Ok (texts, labels)) = Ok (texts', labels') →
    length texts' = length labels'.
Proof.
  induction entries as [|entry entries IH];
    intros texts labels texts' labels' Hlen Hrun.
  - by injection Hrun as <- <-.
  - cbn [fold_left] in Hrun.
    destruct entry as [| | | | |items];
      try (by rewrite entries_fold_raise in Hrun).
    destruct (is_none _ || is_none _).
    + by eapply IH.
    + eapply IH; [|exact Hrun]. rewrite !length_app. simpl. lia.
Qed.

Lemma collect_entries_lengths (data_list : @pyjson number) texts labels :
  collect_entries data_list = Ok (texts, labels) →
  length texts = length labels.
Proof.
  unfold collect_entries.
  destruct data_list as [| | |s|items|items]; cbn [py_iter];
    try discriminate; try (by intros [= <- <-]);
    by apply entries_fold_lengths.
Qed.

(** X18.  Whenever the loader hands back texts and labels, there is at
    least one text and there are as many labels as texts, whichever of
    the three layouts the file has. *)
Theorem load_texts_labels_paired fuel data texts labels :
  load_texts_labels nonzero fuel data = Ok (texts, labels) →
  texts ≠ [] ∧ length texts = length labels.
Proof.
  unfold load_texts_labels.
  match goal with
  | |- context [match ?g with Ok _ => _ | Raise _ => _ end] =>
      destruct g as [[ts ls]|e] eqn:Hgathered
  end; [|done].
  destruct ts as [|t ts]; [done|]. intros [= <- <-]. split; [done|].
  destruct data as [| | | |items|items]; try done.
  - by apply collect_entries_lengths in Hgathered.
  - destruct (dict_get "data" items) as [data_list|].
    + by apply collect_entries_lengths in Hgathered.
    + destruct (dict_get "tag" items), (dict_get "children" items);
        try done.
      by apply flatten_lengths in Hgathered.
Qed.

Lemma records_fold (pairs : list (@pyjson number * @pyjson number)) :
  ∀ texts labels,
    fold_left entry_step (text_label_record <$> pairs) (Ok (texts, labels))
    = Ok (texts ++ (List.filter complete_record pairs).*1,
          labels ++ (List.filter complete_record pairs).*2).
Proof.
  induction pairs as [|[t l] pairs IH]; intros texts labels.
  - simpl. by rewrite !app_nil_r.
  - rewrite fmap_cons. cbn [fold_left text_label_record fst snd].
    change (dict_get "text" [("text", t); ("label", l)]) with (Some t).
    change (dict_get "label" [("text", t); ("label", l)]) with (Some l).
    cbn [default from_option id List.filter].
    change (complete_record (t, l))
      with (negb (is_none t) && negb (is_none l)).
    destruct (is_none t), (is_none l); cbn [orb negb andb];
      rewrite IH; try done.
    cbn [fmap list_fmap fst snd]. by rewrite <- !app_assoc.
Qed.

(** X19.  A file that is a list of records, bare or under the key data,
    yields the texts and labels of the records that have both, in the
    order of the file; a record whose text or label is missing or null is
    passed over, and when none is left the loader raises the ValueError
    for a file without valid entries. *)
Theorem load_records fuel (pairs : list (@pyjson number * @pyjson number)) :
  let kept := List.filter complete_record pairs in
  let outcome :=
    match kept with
    | [] => Raise (ValueError no_entries_message)
    | _ => Ok (kept.*1, kept.*2)
    end in
  load_texts_labels nonzero fuel (PList (text_label_record <$> pairs))
  = outcome ∧
  load_texts_labels nonzero fuel
    (PDict [("data", PList (text_label_record <$> pairs))])
  = outcome.
Proof.
  intros kept outcome. unfold load_texts_labels.
  change (dict_get "data" [("data", ?v)]) with (Some v).
  unfold collect_entries. cbn [py_iter]. rewrite records_fold.
  fold kept. subst outcome. cbn [app]. by destruct kept.
Qed.
End load_facts.

Lemma load_texts_labels_paired_witness :
  [@PStr Z "good"] ≠ [] ∧ length [@PStr Z "good"] = length [@PNumber Z 1%Z].
Proof.
  apply (load_texts_labels_paired nonzero_Z 1
           (PList [PDict [("text", PStr "good"); ("label", PNumber 1%Z)];
                   PDict [("text", PStr "no label")]])
           [PStr "good"] [PNumber 1%Z]).
  reflexivity.
Defined.

(** ** Samples of a text *)

Lemma substring_length i m (s : string) :
  String.length (String.substring i m s) = Nat.min m (String.length s - i).
Proof.
  revert i m. induction s as [|c s IH]; intros [|i] [|m]; cbn;
    rewrite ?IH, ?Nat.sub_0_r; done.
Qed.

Lemma substring_all n (s : string) :
  String.length s ≤ n → String.substring 0 n s = s.
Proof.
  revert n. induction s as [|c s IH]; intros [|n] Hn; cbn in *;
    try done; try lia.
  rewrite IH; [done|lia].
Qed.

Lemma substring_split a b (s : string) :
  String.substring 0 (a + b) s
  = String.substring 0 a s +:+ String.substring a b s.
Proof.
  revert s. induction a as [|a IH]; intros s.
  - simpl. by destruct b, s.
  - destruct s as [|c s].
    + by destruct b.
    + cbn [Nat.add String.substring]. by rewrite IH.
Qed.

Lemma join_samples size (text : string) m :
  join "" ((fun i => String.substring i size text)
             <$> ((fun k => k * size) <$> seq 0 m))
  = String.substring 0 (m * size) text.
Proof.
  induction m as [|m IH].
  - simpl. by destruct text.
  - rewrite seq_S, !fmap_app, join_empty_app, IH. simpl.
    by rewrite (Nat.add_comm size), substring_split.
Qed.

Lemma range_covers stop step :
  0 < step → stop ≤ (stop + step - 1) / step * step.
Proof.
  intros Hstep.
  pose proof (Nat.div_mod_eq (stop + step - 1) step) as Hdiv.
  pose proof (Nat.mod_upper_bound (stop + step - 1) step) as Hmod.
  nia.
Qed.

Lemma range_below stop step k :
  0 < step → k < (stop + step - 1) / step → k * step < stop.
Proof.
  intros Hstep Hk.
  pose proof (Nat.div_mod_eq (stop + step - 1) step) as Hdiv.
  nia.
Qed.

(** X20.  With a positive sample size the samples, put end to end, are
    the text again; there are as many as the length of the text divided
    by the sample size, rounded up; and the sample at position k holds
    the sample size or what is left of the text from k times the sample
    size on, whichever is less, and is never empty. *)
Theorem split_into_samples_chunks text sample_size :
  (0 < sample_size)%Z →
  ∃ samples,
    split_into_samples text sample_size = Ok samples ∧
    join "" samples = text ∧
    length samples
    = (String.length text + Z.to_nat sample_size - 1) / Z.to_nat sample_size ∧
    ∀ k sample,
      samples !! k = Some sample →
      String.length sample
      = Nat.min (Z.to_nat sample_size)
                (String.length text - k * Z.to_nat sample_size) ∧
      0 < String.length sample.
Proof.
  intros Hpos. unfold split_into_samples.
  destruct (Z.eqb_spec sample_size 0) as [|_]; [lia|].
  destruct (Z.ltb_spec sample_size 0) as [|_]; [lia|].
  set (size := Z.to_nat sample_size). assert (0 < size) as Hsize by lia.
  eexists. split; [reflexivity|]. unfold py_range. split_and!.
  - rewrite join_samples. apply substring_all. by apply range_covers.
  - by rewrite !length_fmap, length_seq.
  - intros k sample. rewrite !list_lookup_fmap.
    destruct (seq 0 _ !! k) as [k'|] eqn:Hk; [|done].
    apply lookup_seq in Hk as [-> Hk]. simpl. intros [= <-].
    rewrite substring_length.
    pose proof (range_below _ _ _ Hsize Hk). split; [done|lia].
Qed.

Lemma split_into_samples_chunks_witness :
  ∃ samples,
    split_into_samples "abcdefg" 3 = Ok samples ∧
    join "" samples = "abcdefg" ∧
    length samples = (7 + 3 - 1) / 3 ∧
    ∀ k sample,
      samples !! k = Some sample →
      String.length sample = Nat.min 3 (7 - k * 3) ∧
      0 < String.length sample.
Proof. apply (split_into_samples_chunks "abcdefg" 3). lia. Defined.

(** X21.  The edges of [split_into_samples]: a sample size of zero is a
    ValueError, a negative sample size gives no samples at all whatever
    the text, and the empty text gives no samples. *)
Theorem split_into_samples_edges text sample_size :
  split_into_samples text 0 = Raise (ValueError range_zero_step_message) ∧
  ((sample_size < 0)%Z → split_into_samples text sample_size = Ok []) ∧
  ((sample_size ≠ 0)%Z → split_into_samples "" sample_size = Ok []).
Proof.
  split_and!; [done| |].
  - intros Hneg. unfold split_into_samples.
    destruct (Z.eqb_spec sample_size 0) as [|_]; [lia|].
    by destruct (Z.ltb_spec sample_size 0); [|lia].
  - intros Hne. unfold split_into_samples.
    destruct (Z.eqb_spec sample_size 0) as [|_]; [done|].
    destruct (Z.ltb_spec sample_size 0) as [|Hpos]; [done|].
    unfold py_range. simpl.
    rewrite Nat.div_small by lia. done.
Qed.

Lemma split_into_samples_edges_witness :
  split_into_samples "abc" (-2) = Ok [] ∧
  split_into_samples "" 1000 = Ok [].
Proof.
  destruct (split_into_samples_edges "abc" (-2)) as (_ & Hneg & _).
  destruct (split_into_samples_edges "abc" 1000) as (_ & _ & Hempty).
  split; [apply Hneg; lia|apply Hempty; lia].
Defined.

(** ** Vocabulary and sequences *)

Lemma build_vocab_fold (words : list (string * nat)) :
  ∀ m : gmap string nat,
    NoDup words.*1 → (∀ w, w ∈ words.*1 → m !! w = None) →
    let m' :=
      fold_left
        (fun word_to_idx '(word, _) =>
           <[word := size word_to_idx]> word_to_idx) words m in
    size m' = size m + length words ∧
    (∀ w, w ∉ words.*1 → m' !! w = m !! w) ∧
    (∀ i w, words.*1 !! i = Some w → m' !! w = Some (size m + i)).
Proof.
  induction words as [|[word count] words IH]; intros m Hnodup Hfresh.
  - simpl. split_and!; [lia|done|]. intros i w Hi. by inversion Hi.
  - cbn [fmap list_fmap fst] in Hnodup, Hfresh |- *.
    apply NoDup_cons in Hnodup as [Hword Hnodup].
    assert (m !! word = None) as Hnew by (apply Hfresh; left).
    cbn [fold_left].
    destruct (IH (<[word := size m]> m) Hnodup) as (Hsize & Hkeep & Hidx).
    { intros w Hw. rewrite lookup_insert_ne; [apply Hfresh; by right|].
      intros ->. done. }
    rewrite map_size_insert_None in Hsize, Hidx by done.
    split_and!.
    + simpl. lia.
    + intros w Hw. apply not_elem_of_cons in Hw as [Hne Hw].
      rewrite Hkeep by done. by rewrite lookup_insert_ne.
    + intros [|i] w Hi.
      * injection Hi as <-. rewrite Hkeep by done.
        rewrite lookup_insert_eq. f_equal. lia.
      * simpl in Hi. rewrite (Hidx i w Hi). f_equal. lia.
Qed.

(** X22.  When the words handed to the vocabulary are all different and
    none is the padding word, the padding word keeps index 0, the word at
    position i gets index i + 1, and the vocabulary has one entry more
    than there are words: no two words share an index and every index is
    at most the number of words. *)
Theorem build_vocab_indices vocab_common :
  NoDup vocab_common.*1 → "<PAD>" ∉ vocab_common.*1 →
  build_vocab vocab_common !! "<PAD>" = Some 0 ∧
  size (build_vocab vocab_common) = S (length vocab_common) ∧
  ∀ i word, vocab_common.*1 !! i = Some word →
            build_vocab vocab_common !! word = Some (S i).
Proof.
  intros Hnodup Hpad. unfold build_vocab.
  destruct (build_vocab_fold vocab_common {["<PAD>" := 0]} Hnodup)
    as (Hsize & Hkeep & Hidx).
  { intros w Hw. apply lookup_singleton_ne. by intros <-. }
  rewrite map_size_singleton in Hsize, Hidx. split_and!.
  - rewrite Hkeep by done. apply lookup_singleton_eq.
  - done.
  - done.
Qed.

Lemma build_vocab_indices_witness :
  build_vocab [("good", 5); ("bad", 2)] !! "<PAD>" = Some 0 ∧
  size (build_vocab [("good", 5); ("bad", 2)]) = 3 ∧
  ∀ i word, [("good", 5); ("bad", 2)].*1 !! i = Some word →
            build_vocab [("good", 5); ("bad", 2)] !! word = Some (S i).
Proof.
  apply (build_vocab_indices [("good", 5); ("bad", 2)]).
  - apply (bool_decide_unpack _). by vm_compute.
  - apply (bool_decide_unpack _). by vm_compute.
Defined.

(** X23.  For a maximal length that is not negative every sequence comes
    out with exactly that length: the indices of the first tokens, with 0
    for a word the vocabulary lacks, then zeros up to the length. *)
Theorem pad_sequence_length word_to_idx tokens max_len :
  (0 ≤ max_len)%Z →
  length (pad_sequence word_to_idx tokens max_len) = Z.to_nat max_len ∧
  (∀ i token,
     i < Z.to_nat max_len → tokens !! i = Some token →
     pad_sequence word_to_idx tokens max_len !! i
     = Some (default 0 (word_to_idx !! token))) ∧
  (∀ i,
     length tokens ≤ i < Z.to_nat max_len →
     pad_sequence word_to_idx tokens max_len !! i = Some 0).
Proof.
  intros Hpos. unfold pad_sequence, py_slice_to.
  destruct (Z.leb_spec 0 max_len) as [_|]; [|lia].
  set (indices := (fun word => default 0 (word_to_idx !! word)) <$> tokens).
  assert (length indices = length tokens) as Hlen by apply length_fmap.
  pose proof (length_take indices (Z.to_nat max_len)) as Htake.
  destruct (Z.ltb_spec (Z.of_nat (length (take (Z.to_nat max_len) indices)))
              max_len) as [Hshort|Hfull].
  - split_and!.
    + rewrite length_app, length_replicate. lia.
    + intros i token Hi Htoken.
      pose proof (lookup_lt_Some _ _ _ Htoken).
      rewrite lookup_app_l by lia. rewrite lookup_take_lt by lia.
      unfold indices. by rewrite list_lookup_fmap, Htoken.
    + intros i Hi. rewrite lookup_app_r by lia.
      apply lookup_replicate_2. lia.
  - split_and!.
    + lia.
    + intros i token Hi Htoken. rewrite lookup_take_lt by lia.
      unfold indices. by rewrite list_lookup_fmap, Htoken.
    + intros i Hi. lia.
Qed.

Lemma pad_sequence_length_witness :
  length (pad_sequence (build_vocab [("good", 5)]) ["good"; "odd"] 4) = 4.
Proof.
  apply (proj1 (pad_sequence_length (build_vocab [("good", 5)])
                  ["good"; "odd"] 4 ltac:(lia))).
Defined.

(** ** Fetching with retries *)

Lemma fetch_loop_first remaining driver :
  ∀ start n html,
    n < remaining →
    (∀ i, i < n → driver (start + i) = WebDriverException) →
    driver (start + n) = PageSource html →
    fetch_loop remaining driver start = (Some (Ok html), n).
Proof.
  induction remaining as [|remaining IH]; intros start n html Hn Hfail Hpage;
    [lia|].
  cbn [fetch_loop]. destruct n as [|n].
  - rewrite Nat.add_0_r in Hpage. by rewrite Hpage.
  - rewrite <- (Nat.add_0_r start), (Hfail 0) by lia.
    rewrite Nat.add_0_r. rewrite (IH (S start) n html); [done|lia| |].
    + intros i Hi. replace (S start + i) with (start + S i) by lia.
      apply Hfail. lia.
    + by replace (S start + n) with (start + S n) by lia.
Qed.

Lemma fetch_loop_exhausted remaining driver :
  ∀ start,
    (∀ i, i < remaining → driver (start + i) = WebDriverException) →
    fetch_loop remaining driver start = (None, remaining).
Proof.
  induction remaining as [|remaining IH]; intros start Hfail; [done|].
  cbn [fetch_loop]. rewrite <- (Nat.add_0_r start), (Hfail 0) by lia.
  rewrite Nat.add_0_r, IH; [done|].
  intros i Hi. replace (S start + i) with (start + S i) by lia.
  apply Hfail. lia.
Qed.

(** X24.  [fetch] tries at most [max_retries] times.  It returns the page
    of the first attempt that gets one, having slept once for each
    attempt before it; when every one of the [max_retries] attempts ends
    in a WebDriverException it sleeps after each and then raises, and
    with [max_retries] zero or negative it raises without trying. *)
Theorem fetch_retries max_retries url driver :
  (∀ n html,
     n < Z.to_nat max_retries →
     (∀ i, i < n → driver i = WebDriverException) →
     driver n = PageSource html →
     fetch max_retries url driver = (Ok html, n)) ∧
  ((∀ i, i < Z.to_nat max_retries → driver i = WebDriverException) →
   fetch max_retries url driver
   = (Raise (Exception_ (fetch_failed_message url max_retries)),
      Z.to_nat max_retries)) ∧
  ((max_retries ≤ 0)%Z →
   fetch max_retries url driver
   = (Raise (Exception_ (fetch_failed_message url max_retries)), 0)).
Proof.
  unfold fetch. split_and!.
  - intros n html Hn Hfail Hpage.
    by rewrite (fetch_loop_first _ driver 0 n html).
  - intros Hfail. by rewrite (fetch_loop_exhausted _ driver 0).
  - intros Hle. by replace (Z.to_nat max_retries) with 0 by lia.
Qed.

Lemma fetch_retries_witness :
  fetch 3 "u"
    (fun n => match n with 2 => PageSource "<p>" | _ => WebDriverException end)
  = (Ok "<p>", 2) ∧
  fetch 0 "u" (fun _ => PageSource "<p>")
  = (Raise (Exception_ "Failed to fetch u after 0 attempts."), 0).
Proof.
  split.
  - apply (proj1 (fetch_retries 3 "u"
                    (fun n => match n with
                              | 2 => PageSource "<p>"
                              | _ => WebDriverException
                              end)) 2 "<p>"); [simpl; lia| |reflexivity].
    intros [|[|i]] Hi; [reflexivity|reflexivity|lia].
  - apply (proj2 (proj2 (fetch_retries 0 "u" (fun _ => PageSource "<p>")))).
    lia.
Defined.

(** ** Texts and labels of scraped pages *)



